(** * Road-generation: the growth engine of the three city generators

    A shallow embedding of the growth engine found in
    [normal_city_unplanned.py], [normal_city_unplanned_enhance.py] and
    [Simcity_surburbs.py], and the properties of it that the specification
    states.

    Modelling conventions.

    - Coordinates are exact rationals ([Q]): the development reasons about
      the arithmetic the code writes down, not about the rounding of IEEE
      doubles.  A Euclidean distance is never computed: every comparison
      [dist >= t] or [dist < t] of the source (with [t >= 0]) is carried
      out on the squares, [t*t <= distsq] or [distsq < t*t].
    - [np.cos(angle)] and [np.sin(angle)] enter as a pair [(c, s)], a
      [direction]; a direction is a unit vector when [c*c + s*s == 1].
    - The random source is an explicit input of [grow_city], a [draw]: the
      node id picked when the queue is refilled and the list of directions
      of the growth attempts (its length is the value of
      [random.randint(1, 3)] / [rng.integers(1, 4)]).
    - A Python exception (a [KeyError], an [IndexError], a method call on
      [None]) is the result [None] of the step.
    - [road_graph] (networkx) is written by the engine and never read by
      it; it mirrors [node_positions] and [road_ages] and is left out.
      The rendering code is out of scope. *)

From Stdlib Require Import List Arith Lia ZArith QArith Qround Lqa Bool.
Import ListNotations.

Open Scope Q_scope.

(** ** Positions and distances *)

Definition pos : Type := (Q * Q)%type.

(** [(cos angle, sin angle)] of a sampled angle. *)
Definition direction : Type := (Q * Q)%type.


Definition sq (x : Q) : Q := x * x.

Definition distsq (p q : pos) : Q :=
  sq (fst p - fst q) + sq (snd p - snd q).

Definition origin : pos := (0, 0).

Definition Qlt_bool (a b : Q) : bool := negb (Qle_bool b a).

(** Equality of two position tuples, as Python compares and hashes them. *)
Definition pos_eqb (p q : pos) : bool :=
  Qeq_bool (fst p) (fst q) && Qeq_bool (snd p) (snd q).

(** [self.min_distance = 0.03] in the three files. *)
Definition min_distance : Q := 3 # 100.

(** [np.linspace(start, stop, num)]: [num] evenly spaced samples, both ends
    included. *)
Definition linspace (start stop : Q) (num : nat) : list Q :=
  map (fun i => start + inject_Z (Z.of_nat i)
                        * ((stop - start) / inject_Z (Z.of_nat (num - 1))))
      (seq 0 num).

(** ** The spatial index

    A [KDTree] is built from a non-empty list of points and answers
    [query([p], k=1)] with the distance to the nearest of them and its
    index in that list (the first one among equally near points).  The
    model keeps the points; the distance is reported squared. *)

Inductive KDTree : Type :=
| KDTree_of (first : pos) (others : list pos).

Definition kd_points (t : KDTree) : list pos :=
  match t with KDTree_of p ps => p :: ps end.

Fixpoint nearest_from (p : pos) (i : nat) (best : Q * nat) (pts : list pos)
  : Q * nat :=
  match pts with
  | [] => best
  | q :: r =>
      nearest_from p (S i)
        (if Qlt_bool (distsq p q) (fst best) then (distsq p q, i) else best) r
  end.

Definition kd_query (t : KDTree) (p : pos) : Q * nat :=
  match t with
  | KDTree_of q r => nearest_from p 1 (distsq p q, 0%nat) r
  end.

(** [KDTree(points)] guarded by [if points:]: [None] stands for "no tree
    was built". *)
Definition build_tree (points : list pos) : option KDTree :=
  match points with
  | [] => None
  | p :: ps => Some (KDTree_of p ps)
  end.

(** ** Roads

    [road_ages] is a dict from the canonical pair [(min, max)] to the
    creation time; the association list keeps its insertion order. *)

Definition road_id : Type := (nat * nat)%type.
Definition roads : Type := list (road_id * nat).

Definition road_id_eqb (a b : road_id) : bool :=
  Nat.eqb (fst a) (fst b) && Nat.eqb (snd a) (snd b).

Fixpoint road_lookup (k : road_id) (r : roads) : option nat :=
  match r with
  | [] => None
  | (k', t) :: r' => if road_id_eqb k k' then Some t else road_lookup k r'
  end.

(** The body of [_add_road], the same in the three files, on the two
    fields it touches. *)
Definition add_road_ages (r : roads) (time : nat) (node1 node2 : nat) : roads :=
  if Nat.eqb node1 node2 then r
  else
    let rid := (Nat.min node1 node2, Nat.max node1 node2) in
    match road_lookup rid r with
    | None => r ++ [(rid, time)]
    | Some _ => r
    end.

(** ** The random draws of one [grow_city] call *)

Record draw : Type := mkDraw {
  d_pick : nat;               (* the node id drawn when the queue is empty *)
  d_angles : list direction   (* one direction per growth attempt *)
}.

Definition unit_directionb (a : direction) : bool :=
  Qeq_bool (fst a * fst a + snd a * snd a) 1.

(** What the random source guarantees: the pick is an existing node id,
    there are one to three attempts, every direction is a unit vector. *)
Definition draw_okb (num_nodes : nat) (d : draw) : bool :=
  Nat.ltb (d_pick d) num_nodes
  && Nat.leb 1 (length (d_angles d))
  && Nat.leb (length (d_angles d)) 3
  && forallb unit_directionb (d_angles d).

(** ** The engine with the dirty flag

    [normal_city_unplanned_enhance.py] and [Simcity_surburbs.py] have the
    same engine up to three points, the variables of this section: the
    factor of [min_distance] in the validity test, the number of radii
    tried, and what is done to a raw candidate position (nothing, or
    [_snap_to_grid]). *)

Module Lazy.

Record state : Type := mkState {
  node_positions : list pos;
  road_ages : roads;
  growth_queue : list nat;
  current_time : nat;
  kd_tree : option KDTree;
  kd_tree_dirty : bool
}.

Section Engine.

Variable valid_factor : Q.
Variable num_radii : nat.
Variable place : pos -> pos.

Definition _update_spatial_index (st : state) : state :=
  mkState (node_positions st) (road_ages st) (growth_queue st)
          (current_time st)
          (match build_tree (node_positions st) with
           | Some t => Some t
           | None => kd_tree st
           end)
          false.

Definition refresh (st : state) : state :=
  if kd_tree_dirty st then _update_spatial_index st else st.

Definition _is_valid_position (st : state) (p : pos) : bool * state :=
  let st1 := refresh st in
  match kd_tree st1 with
  | None => (true, st1)
  | Some t =>
      (Qle_bool (sq (min_distance * valid_factor)) (fst (kd_query t p)), st1)
  end.

Definition candidates (base_pos : pos) (angle : direction) : list pos :=
  map (fun d => place (fst base_pos + d * fst angle,
                       snd base_pos + d * snd angle))
      (linspace min_distance (2 * min_distance) num_radii).

Fixpoint first_valid (st : state) (cands : list pos) : option pos * state :=
  match cands with
  | [] => (None, st)
  | p :: rest =>
      let (ok, st1) := _is_valid_position st p in
      if ok then (Some p, st1) else first_valid st1 rest
  end.

Definition _find_valid_position (st : state) (base_pos : pos)
    (angle : direction) : option pos * state :=
  first_valid st (candidates base_pos angle).

Definition _add_node (st : state) (p : pos) : option nat * state :=
  let (ok, st1) := _is_valid_position st p in
  if ok then
    let node_id := length (node_positions st1) in
    (Some node_id,
     mkState (node_positions st1 ++ [p]) (road_ages st1)
             (growth_queue st1 ++ [node_id]) (current_time st1)
             (kd_tree st1) true)
  else (None, st1).

Definition _add_road (st : state) (node1 node2 : nat) : state :=
  mkState (node_positions st)
          (add_road_ages (road_ages st) (current_time st) node1 node2)
          (growth_queue st) (current_time st) (kd_tree st) (kd_tree_dirty st).

(** One iteration of the [for] loop of [grow_city]. *)
Definition attempt (node_id : nat) (p : pos) (st : state) (angle : direction)
  : option state :=
  let (found, st1) := _find_valid_position st p angle in
  match found with
  | None => Some st1
  | Some new_pos =>
      let st2 := refresh st1 in
      match kd_tree st2 with
      | None => None
      | Some t =>
          let (dist, idx) := kd_query t new_pos in
          if Qlt_bool dist (sq (min_distance * (1 # 2)))
          then Some (_add_road st2 node_id idx)
          else
            let (new_node_id, st3) := _add_node st2 new_pos in
            match new_node_id with
            | Some n => Some (_add_road st3 node_id n)
            | None => Some st3
            end
      end
  end.

Fixpoint attempts (node_id : nat) (p : pos) (st : state)
    (angles : list direction) : option state :=
  match angles with
  | [] => Some st
  | a :: rest =>
      match attempt node_id p st a with
      | Some st1 => attempts node_id p st1 rest
      | None => None
      end
  end.

Definition grow_city (st : state) (d : draw) : option state :=
  match growth_queue st with
  | [] =>
      match node_positions st with
      | [] => Some st
      | _ :: _ =>
          Some (mkState (node_positions st) (road_ages st) [d_pick d]
                        (current_time st) (kd_tree st) (kd_tree_dirty st))
      end
  | node_id :: rest =>
      let st1 := mkState (node_positions st) (road_ages st) rest
                         (S (current_time st)) (kd_tree st)
                         (kd_tree_dirty st) in
      match nth_error (node_positions st1) node_id with
      | None => None
      | Some p => attempts node_id p st1 (d_angles d)
      end
  end.

(** The fields as [__init__] sets them, before and after its
    [self._add_node((0.0, 0.0))]. *)
Definition blank : state := mkState [] [] [] 0 None false.

Definition init : state := snd (_add_node blank origin).

Definition draw_ok (st : state) (d : draw) : Prop :=
  draw_okb (length (node_positions st)) d = true.

(** [reachable_in n st]: [st] is the state after [n] calls of [grow_city]
    on a fresh generator. *)
Inductive reachable_in : nat -> state -> Prop :=
| reach_init : reachable_in 0 init
| reach_step n st d st' :
    reachable_in n st -> draw_ok st d -> grow_city st d = Some st' ->
    reachable_in (S n) st'.

Definition reachable (st : state) : Prop := exists n, reachable_in n st.

(** The run of [grow_city] over a list of draws, for evaluation. *)
Fixpoint run (st : state) (ds : list draw) : option state :=
  match ds with
  | [] => Some st
  | d :: rest =>
      if draw_okb (length (node_positions st)) d then
        match grow_city st d with
        | Some st1 => run st1 rest
        | None => None
        end
      else None
  end.

End Engine.

End Lazy.

(** ** [normal_city_unplanned_enhance.py] *)

Module Enhance.

Definition place (p : pos) : pos := p.

Definition _is_valid_position := Lazy._is_valid_position 1.
Definition _find_valid_position := Lazy._find_valid_position 1 5 place.
Definition _add_node := Lazy._add_node 1.
Definition _add_road := Lazy._add_road.
Definition attempt := Lazy.attempt 1 5 place.
Definition grow_city := Lazy.grow_city 1 5 place.
Definition init := Lazy.init 1.
Definition reachable_in := Lazy.reachable_in 1 5 place.
Definition reachable := Lazy.reachable 1 5 place.
Definition run := Lazy.run 1 5 place.

End Enhance.

(** ** [Simcity_surburbs.py] *)

Module Suburbs.

(** [self.grid_size = self.min_distance]. *)
Definition grid_size : Q := min_distance.

(** Python's [round] on a float: to the nearest integer, a tie to the even
    one. *)
Definition round_half_even (x : Q) : Z :=
  let f := Qfloor x in
  let r := x - inject_Z f in
  if Qlt_bool r (1 # 2) then f
  else if Qlt_bool (1 # 2) r then (f + 1)%Z
  else if Z.even f then f else (f + 1)%Z.

Definition _snap_to_grid (p : pos) : pos :=
  (inject_Z (round_half_even (fst p / grid_size)) * grid_size,
   inject_Z (round_half_even (snd p / grid_size)) * grid_size).

Definition _is_valid_position := Lazy._is_valid_position (9 # 10).
Definition _find_valid_position :=
  Lazy._find_valid_position (9 # 10) 3 _snap_to_grid.
Definition _add_node := Lazy._add_node (9 # 10).
Definition _add_road := Lazy._add_road.
Definition attempt := Lazy.attempt (9 # 10) 3 _snap_to_grid.
Definition grow_city := Lazy.grow_city (9 # 10) 3 _snap_to_grid.
Definition init := Lazy.init (9 # 10).
Definition reachable_in := Lazy.reachable_in (9 # 10) 3 _snap_to_grid.
Definition reachable := Lazy.reachable (9 # 10) 3 _snap_to_grid.
Definition run := Lazy.run (9 # 10) 3 _snap_to_grid.

End Suburbs.

(** ** [normal_city_unplanned.py]

    [node_positions] is a dict whose keys are [0 .. len-1] (a node id is
    the length of the dict when it is added), hence a list here.
    [position_to_node] is a dict keyed by position tuples; a later entry
    for an equal key replaces the earlier one, which the lookup below sees
    as the most recent entry first. *)

Module Unplanned.

Record state : Type := mkState {
  node_positions : list pos;
  position_to_node : list (pos * nat);
  road_ages : roads;
  growth_queue : list nat;
  current_time : nat;
  kd_tree : option KDTree
}.

Fixpoint position_lookup (p : pos) (m : list (pos * nat)) : option nat :=
  match m with
  | [] => None
  | (q, n) :: m' => if pos_eqb p q then Some n else position_lookup p m'
  end.

Definition _update_spatial_index (st : state) : state :=
  mkState (node_positions st) (position_to_node st) (road_ages st)
          (growth_queue st) (current_time st)
          (match build_tree (node_positions st) with
           | Some t => Some t
           | None => kd_tree st
           end).

Definition _is_valid_position (st : state) (p : pos) : bool :=
  match kd_tree st with
  | None => true
  | Some t => Qle_bool (sq min_distance) (fst (kd_query t p))
  end.

Definition candidates (base_pos : pos) (angle : direction) : list pos :=
  map (fun d => (fst base_pos + d * fst angle, snd base_pos + d * snd angle))
      (linspace min_distance (2 * min_distance) 5).

Definition _find_valid_position (st : state) (base_pos : pos)
    (angle : direction) : option pos :=
  find (_is_valid_position st) (candidates base_pos angle).

Definition _add_node (st : state) (p : pos) : option nat * state :=
  if _is_valid_position st p then
    let node_id := length (node_positions st) in
    let st1 := mkState (node_positions st ++ [p])
                       ((p, node_id) :: position_to_node st)
                       (road_ages st) (growth_queue st ++ [node_id])
                       (current_time st) (kd_tree st) in
    (Some node_id,
     if Nat.eqb (node_id mod 10) 0 then _update_spatial_index st1 else st1)
  else (None, st).

Definition _add_road (st : state) (node1 node2 : nat) : state :=
  mkState (node_positions st) (position_to_node st)
          (add_road_ages (road_ages st) (current_time st) node1 node2)
          (growth_queue st) (current_time st) (kd_tree st).

(** One iteration of the [for] loop of [grow_city]. *)
Definition attempt (node_id : nat) (p : pos) (st : state) (angle : direction)
  : state :=
  match _find_valid_position st p angle with
  | None => st
  | Some new_pos =>
      match position_lookup new_pos (position_to_node st) with
      | Some existing_node => _add_road st node_id existing_node
      | None =>
          let (new_node, st1) := _add_node st new_pos in
          match new_node with
          | Some n => _add_road st1 node_id n
          | None => st1
          end
      end
  end.

Definition grow_city (st : state) (d : draw) : option state :=
  match growth_queue st with
  | [] =>
      match node_positions st with
      | [] => Some st
      | _ :: _ =>
          Some (mkState (node_positions st) (position_to_node st)
                        (road_ages st) [d_pick d] (current_time st)
                        (kd_tree st))
      end
  | node_id :: rest =>
      let st1 := mkState (node_positions st) (position_to_node st)
                         (road_ages st) rest (S (current_time st))
                         (kd_tree st) in
      match nth_error (node_positions st1) node_id with
      | None => None
      | Some p => Some (fold_left (attempt node_id p) (d_angles d) st1)
      end
  end.

Definition blank : state := mkState [] [] [] [] 0 None.

Definition init : state := snd (_add_node blank origin).

Definition draw_ok (st : state) (d : draw) : Prop :=
  draw_okb (length (node_positions st)) d = true.

Inductive reachable_in : nat -> state -> Prop :=
| reach_init : reachable_in 0 init
| reach_step n st d st' :
    reachable_in n st -> draw_ok st d -> grow_city st d = Some st' ->
    reachable_in (S n) st'.

Definition reachable (st : state) : Prop := exists n, reachable_in n st.

(** The run of [grow_city] over a list of draws, for evaluation. *)
Fixpoint run (st : state) (ds : list draw) : option state :=
  match ds with
  | [] => Some st
  | d :: rest =>
      if draw_okb (length (node_positions st)) d then
        match grow_city st d with
        | Some st1 => run st1 rest
        | None => None
        end
      else None
  end.

End Unplanned.

(** * Specification predicates *)

(** [valid_against thr pts p]: [p] is at distance [thr] or more from every
    point of [pts]. *)
Definition valid_against (thr : Q) (pts : list pos) (p : pos) : bool :=
  forallb (fun q => Qle_bool (sq thr) (distsq p q)) pts.



(** [p] is within distance [r] of the origin. *)
Definition within (r : Q) (p : pos) : Prop :=
  sq (fst p) + sq (snd p) <= sq r.

(** Two road keys with the same endpoints, in either order. *)
Definition same_endpoints (k k' : road_id) : Prop :=
  (fst k = fst k' /\ snd k = snd k') \/ (fst k = snd k' /\ snd k = fst k').

(** No two entries of the road set have the same unordered pair of
    endpoints. *)
Definition roads_unique (r : roads) : Prop :=
  forall i j e e', nth_error r i = Some e -> nth_error r j = Some e' ->
    same_endpoints (fst e) (fst e') -> i = j.

(** The keys are canonical pairs [(a, b)] with [a < b], each at most once. *)
Definition roads_canonical (r : roads) : Prop :=
  NoDup (map fst r) /\ Forall (fun e => (fst (fst e) < snd (fst e))%nat) r.


Module LazyInv.

Import Lazy.

(** The index is either flagged dirty (and there is a node to index) or
    holds exactly the current node positions. *)
Definition coherent (st : state) : Prop :=
  if kd_tree_dirty st then node_positions st <> []
  else kd_tree st = build_tree (node_positions st).

(** Well-formedness of the states of a run: there is a node, the index is
    coherent, the queue and the roads mention existing nodes only. *)
Definition wf (st : state) : Prop :=
  node_positions st <> [] /\
  coherent st /\
  Forall (fun n => (n < length (node_positions st))%nat) (growth_queue st) /\
  Forall (fun e => (fst (fst e) < length (node_positions st))%nat /\
                   (snd (fst e) < length (node_positions st))%nat)
         (road_ages st).

(** The state after a growth attempt from node [node_id] that found the
    valid candidate [c]: a new node at [c], queued, and a road to it. *)
Definition grown (st : state) (node_id : nat) (c : pos) : state :=
  mkState (node_positions st ++ [c])
          (add_road_ages (road_ages st) (current_time st) node_id
                         (length (node_positions st)))
          (growth_queue st ++ [length (node_positions st)])
          (current_time st) (build_tree (node_positions st)) true.

(** The state once the clock is advanced and the head of the queue is
    removed. *)
Definition popped (st : state) : state :=
  mkState (node_positions st) (road_ages st) (tl (growth_queue st))
          (S (current_time st)) (kd_tree st) (kd_tree_dirty st).

(** The state once the empty queue is refilled with the node [n]. *)
Definition reseeded (st : state) (n : nat) : state :=
  mkState (node_positions st) (road_ages st) [n] (current_time st)
          (kd_tree st) (kd_tree_dirty st).



(** [st1] differs from [st] in the spatial index only. *)
Definition same_graph (st st1 : state) : Prop :=
  node_positions st1 = node_positions st /\
  road_ages st1 = road_ages st /\
  growth_queue st1 = growth_queue st /\
  current_time st1 = current_time st.

(** What a growth attempt may change: the clock stands still, nodes and
    roads are only added, at most [k] of each. *)
Definition grows_by (k : nat) (st st' : state) : Prop :=
  current_time st' = current_time st /\
  (length (node_positions st) <= length (node_positions st')
     <= length (node_positions st) + k)%nat /\
  (length (road_ages st) <= length (road_ages st')
     <= length (road_ages st) + k)%nat.

End LazyInv.

Module UnplannedInv.

Import Unplanned.

(** Well-formedness of the states of a run: there is a node and the queue
    mentions existing nodes only. *)
Definition wf (st : state) : Prop :=
  node_positions st <> [] /\
  Forall (fun n => (n < length (node_positions st))%nat) (growth_queue st).

(** What a growth attempt may change: the clock stands still, nodes and
    roads are only added, at most one of each. *)
Definition grows_by (k : nat) (st st' : state) : Prop :=
  current_time st' = current_time st /\
  (length (node_positions st) <= length (node_positions st')
     <= length (node_positions st) + k)%nat /\
  (length (road_ages st) <= length (road_ages st')
     <= length (road_ages st) + k)%nat.

End UnplannedInv.






From Stdlib Require Import Qminmax.

(** * The data of a rendered frame

    [optimized_render] without the plotting: what it hands to matplotlib.
    A stroke is a segment with the normalised age given to the colormap and
    its line width; the colormap itself and the drawing are left out. *)

Record stroke : Type := mkStroke {
  segment : pos * pos;
  shade : Q;
  linewidth : Q
}.

Record frame : Type := mkFrame {
  lc_main : list stroke;
  lc_glow : list stroke;
  xlim : option (Q * Q);       (* [None]: the axes are left as they are *)
  ylim : option (Q * Q);
  stats : nat * nat            (* the road and node counts of the text *)
}.

(** [min(1.0, age / 50)] with [age = current_time - time_added]. *)
Definition normalized_age (current_time time_added : nat) : Q :=
  Qmin 1 (inject_Z (Z.of_nat current_time - Z.of_nat time_added) / 50).

(** [all_pos.min(axis=0) - 0.1] and [all_pos.max(axis=0) + 0.1], one
    coordinate at a time, of a non-empty array. *)
Definition axis_limits (v : Q) (vs : list Q) : Q * Q :=
  (fold_left Qmin vs v - (1 # 10), fold_left Qmax vs v + (1 # 10)).

(** The slice [l[::2]]; [l[1::2]] is [every_other (tl l)]. *)
Fixpoint every_other {A : Type} (l : list A) : list A :=
  match l with
  | [] => []
  | x :: r => x :: match r with
                   | [] => []
                   | _ :: r' => every_other r'
                   end
  end.

Module LazyRender.

Import Lazy.

(** The loop over [road_ages.items()]; [None] is the [IndexError] of
    [self.node_positions[u]]. *)
Fixpoint collect (nodes : list pos) (time : nat) (r : roads)
    (main glow : list stroke) : option (list stroke * list stroke) :=
  match r with
  | [] => Some (main, glow)
  | ((u, v), time_added) :: rest =>
      let norm_age := normalized_age time time_added in
      match nth_error nodes u with
      | None => None
      | Some pos_u =>
          match nth_error nodes v with
          | None => None
          | Some pos_v =>
              collect nodes time rest
                (main ++ [mkStroke (pos_u, pos_v) norm_age (3 # 2)])
                (glow ++ [mkStroke (pos_u, pos_v) norm_age 4])
          end
      end
  end.

(** [None] is an exception: the [IndexError] above, or the [ValueError]
    of [min] on an empty array. *)
Definition optimized_render (st : state) : option frame :=
  match collect (node_positions st) (current_time st) (road_ages st) [] [] with
  | None => None
  | Some (main, glow) =>
      match node_positions st with
      | [] => None
      | p :: ps =>
          Some (mkFrame main glow
                  (Some (axis_limits (fst p) (map fst ps)))
                  (Some (axis_limits (snd p) (map snd ps)))
                  (length (road_ages st), length (node_positions st)))
      end
  end.

End LazyRender.

Module UnplannedRender.

Import Unplanned.

(** The loop over [road_ages.items()]: two entries per road, the main
    line and its glow; [None] is the [KeyError] of
    [self.node_positions[u]]. *)
Fixpoint collect (nodes : list pos) (time : nat) (r : roads)
    (entries : list stroke) : option (list stroke) :=
  match r with
  | [] => Some entries
  | ((u, v), time_added) :: rest =>
      let normalized := normalized_age time time_added in
      match nth_error nodes u with
      | None => None
      | Some pos_u =>
          match nth_error nodes v with
          | None => None
          | Some pos_v =>
              collect nodes time rest
                (entries ++ [mkStroke (pos_u, pos_v) normalized (3 # 2);
                             mkStroke (pos_u, pos_v) normalized 4])
          end
      end
  end.

Definition optimized_render (st : state) : option frame :=
  match collect (node_positions st) (current_time st) (road_ages st) [] with
  | None => None
  | Some entries =>
      Some (mkFrame (every_other entries) (every_other (tl entries))
              (match node_positions st with
               | [] => None
               | p :: ps => Some (axis_limits (fst p) (map fst ps))
               end)
              (match node_positions st with
               | [] => None
               | p :: ps => Some (axis_limits (snd p) (map snd ps))
               end)
              (length (road_ages st), length (node_positions st)))
  end.

End UnplannedRender.

(** * Further specification predicates *)







Module UnplannedShape.

Import Unplanned.

(** The state once the clock is advanced and the head of the queue is
    removed. *)
Definition popped (st : state) : state :=
  mkState (node_positions st) (position_to_node st) (road_ages st)
          (tl (growth_queue st)) (S (current_time st)) (kd_tree st).

(** The state once the empty queue is refilled with the node [n]. *)
Definition reseeded (st : state) (n : nat) : state :=
  mkState (node_positions st) (position_to_node st) (road_ages st) [n]
          (current_time st) (kd_tree st).

(** The state after a growth attempt from node [node_id] that created a
    node at [c]. *)
Definition grown (st : state) (node_id : nat) (c : pos) : state :=
  _add_road (snd (_add_node st c)) node_id (length (node_positions st)).






End UnplannedShape.





(** * Properties *)

(** ** Rational arithmetic *)

Lemma Qle_bool_false (a b : Q) : Qle_bool a b = false <-> b < a.
Proof.
  split; intros H.
  - destruct (Qlt_le_dec b a) as [L|L]; [exact L|].
    apply Qle_bool_iff in L. congruence.
  - destruct (Qle_bool a b) eqn:E; [|reflexivity].
    apply Qle_bool_iff in E. lra.
Qed.

Lemma Qlt_bool_iff (a b : Q) : Qlt_bool a b = true <-> a < b.
Proof.
  unfold Qlt_bool. rewrite negb_true_iff. apply Qle_bool_false.
Qed.

Lemma Qlt_bool_false (a b : Q) : Qlt_bool a b = false <-> b <= a.
Proof.
  unfold Qlt_bool. rewrite negb_false_iff. apply Qle_bool_iff.
Qed.

Lemma sq_nonneg (x : Q) : 0 <= sq x.
Proof.
  unfold sq. destruct (Qlt_le_dec x 0) as [H|H].
  - setoid_replace (x * x) with ((- x) * (- x)) by ring.
    apply Qmult_le_0_compat; lra.
  - apply Qmult_le_0_compat; lra.
Qed.

Lemma Qmult_le_nonneg_l (z x y : Q) : 0 <= z -> x <= y -> z * x <= z * y.
Proof.
  intros Hz Hxy. rewrite (Qmult_comm z x), (Qmult_comm z y).
  apply Qmult_le_compat_r; assumption.
Qed.

Lemma sq_le_sq (a b : Q) : 0 <= a -> a <= b -> sq a <= sq b.
Proof.
  intros Ha Hab. unfold sq.
  apply Qle_trans with (a * b).
  - apply Qmult_le_nonneg_l; assumption.
  - apply Qmult_le_compat_r; lra.
Qed.


Lemma distsq_nonneg (p q : pos) : 0 <= distsq p q.
Proof.
  unfold distsq.
  pose proof (sq_nonneg (fst p - fst q)).
  pose proof (sq_nonneg (snd p - snd q)). lra.
Qed.


(** ** The nearest-neighbour query *)

Lemma nearest_from_le_best p pts : forall i best,
  fst (nearest_from p i best pts) <= fst best.
Proof.
  induction pts as [|q r IH]; intros i best; simpl.
  - lra.
  - eapply Qle_trans; [apply IH|].
    destruct (Qlt_bool (distsq p q) (fst best)) eqn:E; simpl.
    + apply Qlt_bool_iff in E. lra.
    + lra.
Qed.

Lemma nearest_from_le_all p pts : forall i best q,
  In q pts -> fst (nearest_from p i best pts) <= distsq p q.
Proof.
  induction pts as [|q0 r IH]; intros i best q Hin; simpl in *.
  - contradiction.
  - destruct Hin as [->|Hin].
    + eapply Qle_trans; [apply nearest_from_le_best|].
      destruct (Qlt_bool (distsq p q) (fst best)) eqn:E; simpl.
      * lra.
      * apply Qlt_bool_false in E. exact E.
    + apply IH. exact Hin.
Qed.

Lemma nearest_from_attained p pts : forall i best,
  fst (nearest_from p i best pts) = fst best \/
  exists q, In q pts /\ fst (nearest_from p i best pts) = distsq p q.
Proof.
  induction pts as [|q0 r IH]; intros i best; simpl.
  - left. reflexivity.
  - destruct (IH (S i)
       (if Qlt_bool (distsq p q0) (fst best) then (distsq p q0, i) else best))
      as [H|[q [Hin H]]].
    + rewrite H. destruct (Qlt_bool (distsq p q0) (fst best)); simpl.
      * right. exists q0. split; [left; reflexivity|reflexivity].
      * left. reflexivity.
    + right. exists q. split; [right; exact Hin|exact H].
Qed.

(** The reported distance is the least distance to a point of the tree. *)
Lemma kd_query_le t p q :
  In q (kd_points t) -> fst (kd_query t p) <= distsq p q.
Proof.
  destruct t as [q0 r]. simpl. intros [<-|Hin].
  - apply (nearest_from_le_best p r 1%nat (distsq p q0, 0%nat)).
  - apply nearest_from_le_all. exact Hin.
Qed.

Lemma kd_query_attained t p :
  exists q, In q (kd_points t) /\ fst (kd_query t p) = distsq p q.
Proof.
  destruct t as [q0 r]. simpl.
  destruct (nearest_from_attained p r 1%nat (distsq p q0, 0%nat))
    as [H|[q [Hin H]]].
  - exists q0. split; [left; reflexivity|exact H].
  - exists q. split; [right; exact Hin|exact H].
Qed.

Lemma valid_against_iff thr pts p :
  valid_against thr pts p = true <->
  forall q, In q pts -> sq thr <= distsq p q.
Proof.
  unfold valid_against. rewrite forallb_forall.
  split; intros H q Hin.
  - apply Qle_bool_iff. apply H. exact Hin.
  - apply Qle_bool_iff. apply H. exact Hin.
Qed.

Lemma kd_query_valid thr t p :
  Qle_bool (sq thr) (fst (kd_query t p)) = valid_against thr (kd_points t) p.
Proof.
  apply eq_true_iff_eq. rewrite Qle_bool_iff, valid_against_iff.
  split.
  - intros H q Hin. eapply Qle_trans; [exact H|]. apply kd_query_le. exact Hin.
  - intros H. destruct (kd_query_attained t p) as [q [Hin ->]].
    apply H. exact Hin.
Qed.

Lemma build_tree_points pts t : build_tree pts = Some t -> kd_points t = pts.
Proof.
  destruct pts as [|p ps]; simpl; intros H; [discriminate|].
  injection H as <-. reflexivity.
Qed.

Lemma build_tree_some pts : pts <> [] -> exists t, build_tree pts = Some t.
Proof.
  destruct pts as [|p ps]; intros H; [congruence|].
  eexists. reflexivity.
Qed.

(** ** The engine with the dirty flag: basic facts *)

Section LazyFacts.

Import Lazy LazyInv.

Variable valid_factor : Q.
Variable num_radii : nat.
Variable place : pos -> pos.

Let thr : Q := min_distance * valid_factor.
Let is_valid := _is_valid_position valid_factor.
Let add_node := _add_node valid_factor.
Let step := grow_city valid_factor num_radii place.

Lemma refresh_nodes st : node_positions (refresh st) = node_positions st.
Proof. unfold refresh. destruct (kd_tree_dirty st); reflexivity. Qed.

Lemma refresh_roads st : road_ages (refresh st) = road_ages st.
Proof. unfold refresh. destruct (kd_tree_dirty st); reflexivity. Qed.

Lemma refresh_queue st : growth_queue (refresh st) = growth_queue st.
Proof. unfold refresh. destruct (kd_tree_dirty st); reflexivity. Qed.

Lemma refresh_time st : current_time (refresh st) = current_time st.
Proof. unfold refresh. destruct (kd_tree_dirty st); reflexivity. Qed.

Lemma refresh_clean st :
  coherent st ->
  kd_tree_dirty (refresh st) = false /\
  kd_tree (refresh st) = build_tree (node_positions st).
Proof.
  unfold coherent, refresh. destruct (kd_tree_dirty st) eqn:D; intros H.
  - simpl. split; [reflexivity|].
    destruct (build_tree_some _ H) as [t Ht]. rewrite Ht. reflexivity.
  - rewrite D. split; [reflexivity|exact H].
Qed.

Lemma refresh_idem st : refresh (refresh st) = refresh st.
Proof.
  unfold refresh. destruct (kd_tree_dirty st) eqn:D.
  - reflexivity.
  - rewrite D. reflexivity.
Qed.

Lemma refresh_coherent st : coherent st -> coherent (refresh st).
Proof.
  intros H. destruct (refresh_clean st H) as [D T].
  unfold coherent. rewrite D, refresh_nodes. exact T.
Qed.

(** On a coherent state the validity test is the test against all the
    current node positions, and it leaves the index rebuilt. *)
Lemma is_valid_spec st p :
  coherent st ->
  is_valid st p = (valid_against thr (node_positions st) p, refresh st).
Proof.
  intros H. destruct (refresh_clean st H) as [_ T].
  unfold is_valid, _is_valid_position, thr. rewrite T.
  destruct (build_tree (node_positions st)) as [t|] eqn:B.
  - rewrite (kd_query_valid _ t p), (build_tree_points _ _ B). reflexivity.
  - destruct (node_positions st); [reflexivity|discriminate].
Qed.

Lemma first_valid_spec cands : forall st,
  coherent st ->
  first_valid valid_factor st cands =
    (find (valid_against thr (node_positions st)) cands,
     match cands with [] => st | _ :: _ => refresh st end).
Proof.
  induction cands as [|c rest IH]; intros st H; simpl.
  - reflexivity.
  - fold is_valid. rewrite (is_valid_spec st c H).
    destruct (valid_against thr (node_positions st) c); [reflexivity|].
    rewrite (IH _ (refresh_coherent st H)), refresh_nodes, refresh_idem.
    destruct rest; reflexivity.
Qed.


Lemma add_node_spec st p :
  coherent st ->
  add_node st p =
    if valid_against thr (node_positions st) p then
      (Some (length (node_positions st)),
       mkState (node_positions st ++ [p]) (road_ages st)
               (growth_queue st ++ [length (node_positions st)])
               (current_time st) (build_tree (node_positions st)) true)
    else (None, refresh st).
Proof.
  intros H. unfold add_node, _add_node. fold is_valid.
  rewrite (is_valid_spec st p H).
  destruct (valid_against thr (node_positions st) p); [|reflexivity].
  destruct (refresh_clean st H) as [_ T].
  rewrite refresh_nodes, refresh_roads, refresh_queue, refresh_time, T.
  reflexivity.
Qed.

(** The validity threshold is not below the merge threshold
    [0.5 * min_distance]: the factor is 1 or 0.9 in the source. *)
Hypothesis half_le_factor : 1 # 2 <= valid_factor.

Lemma merge_threshold_le : sq (min_distance * (1 # 2)) <= sq thr.
Proof.
  apply sq_le_sq.
  - unfold min_distance. lra.
  - unfold thr. apply Qmult_le_nonneg_l; [unfold min_distance; lra|].
    exact half_le_factor.
Qed.

(** What one growth attempt does on a coherent state with a node: nothing
    but a rebuild of the index when no candidate is valid; otherwise the
    first valid candidate becomes a new node, linked to the origin node. *)
Lemma attempt_spec node_id p st a :
  coherent st -> node_positions st <> [] ->
  attempt valid_factor num_radii place node_id p st a =
    Some
      match find (valid_against thr (node_positions st))
                 (candidates num_radii place p a) with
      | None =>
          match candidates num_radii place p a with
          | [] => st
          | _ :: _ => refresh st
          end
      | Some c => grown st node_id c
      end.
Proof.
  intros H Hne. unfold attempt, _find_valid_position.
  rewrite (first_valid_spec _ st H).
  destruct (find (valid_against thr (node_positions st))
                 (candidates num_radii place p a)) as [c|] eqn:F;
    [|reflexivity].
  destruct (find_some _ _ F) as [Hin Hv].
  destruct (candidates num_radii place p a) as [|c0 cs]; [contradiction|].
  rewrite refresh_idem.
  destruct (refresh_clean st H) as [_ T]. rewrite T.
  destruct (build_tree_some _ Hne) as [t Ht]. rewrite Ht.
  pose proof (kd_query_valid thr t c) as Hq.
  rewrite (build_tree_points _ _ Ht), Hv in Hq.
  apply Qle_bool_iff in Hq.
  destruct (kd_query t c) as [dist idx]. simpl in Hq.
  assert (L : Qlt_bool dist (sq (min_distance * (1 # 2))) = false).
  { apply Qlt_bool_false. pose proof merge_threshold_le. lra. }
  rewrite L. fold add_node.
  rewrite (add_node_spec _ c (refresh_coherent st H)), refresh_nodes, Hv.
  unfold _add_road, grown. simpl.
  rewrite refresh_roads, refresh_queue, refresh_time, Ht. reflexivity.
Qed.


Lemma add_road_ages_range n r t a b :
  Forall (fun e : road_id * nat => (fst (fst e) < n)%nat /\ (snd (fst e) < n)%nat) r ->
  (a < n)%nat -> (b < n)%nat ->
  Forall (fun e : road_id * nat => (fst (fst e) < n)%nat /\ (snd (fst e) < n)%nat)
         (add_road_ages r t a b).
Proof.
  intros Hr Ha Hb. unfold add_road_ages.
  destruct (Nat.eqb a b); [exact Hr|].
  destruct (road_lookup _ r); [exact Hr|].
  apply Forall_app. split; [exact Hr|].
  constructor; [|constructor]. simpl. lia.
Qed.

Lemma wf_refresh st : wf st -> wf (refresh st).
Proof.
  intros (Hn & Hc & Hq & Hr). unfold wf.
  rewrite refresh_nodes, refresh_queue, refresh_roads.
  repeat split; try assumption. apply refresh_coherent. exact Hc.
Qed.

Lemma wf_grown st node_id c :
  wf st -> (node_id < length (node_positions st))%nat ->
  wf (grown st node_id c).
Proof.
  intros (Hn & Hc & Hq & Hr) Hid. unfold wf, grown, coherent. simpl.
  rewrite length_app. simpl.
  repeat split.
  - destruct (node_positions st); discriminate.
  - destruct (node_positions st); discriminate.
  - apply Forall_app. split.
    + eapply Forall_impl; [|exact Hq]. simpl. intros; lia.
    + constructor; [lia|constructor].
  - apply add_road_ages_range; [|lia|lia].
    eapply Forall_impl; [|exact Hr].
    intros [[x y] t] He. simpl in *. lia.
Qed.

Lemma wf_popped st n rest :
  wf st -> growth_queue st = n :: rest ->
  wf (popped st) /\ (n < length (node_positions st))%nat.
Proof.
  intros (Hn & Hc & Hq & Hr) E. rewrite E in Hq.
  apply Forall_cons_iff in Hq. destruct Hq as [Hlt Hq].
  split; [|exact Hlt].
  unfold wf, popped, coherent. simpl. rewrite E. simpl.
  repeat split; assumption.
Qed.

Lemma wf_reseeded st n :
  wf st -> (n < length (node_positions st))%nat -> wf (reseeded st n).
Proof.
  intros (Hn & Hc & Hq & Hr) Hlt. unfold wf, reseeded, coherent. simpl.
  repeat split; try assumption. constructor; [exact Hlt|constructor].
Qed.

(** An invariant of the growth attempts: a property kept by a rebuild of
    the index and by the creation of a node at a valid candidate is kept
    by the whole loop, which does not raise. *)
Lemma attempts_preserve (P : state -> Prop) node_id p :
  forall angles,
  (forall st, wf st -> P st -> P (refresh st)) ->
  (forall st a c, wf st -> P st -> In a angles ->
     (node_id < length (node_positions st))%nat ->
     find (valid_against thr (node_positions st))
          (candidates num_radii place p a) = Some c ->
     P (grown st node_id c)) ->
  forall st, wf st -> (node_id < length (node_positions st))%nat -> P st ->
  exists st', attempts valid_factor num_radii place node_id p st angles
              = Some st' /\ wf st' /\ P st'.
Proof.
  induction angles as [|a rest IH]; intros Href Hgrow st Hwf Hid HP; simpl.
  - exists st. auto.
  - destruct Hwf as (Hn & Hc & Hq & Hr).
    rewrite (attempt_spec node_id p st a Hc Hn).
    assert (Hwf : wf st) by (repeat split; assumption).
    assert (IH' : forall st1, wf st1 ->
              (node_id < length (node_positions st1))%nat -> P st1 ->
              exists st', attempts valid_factor num_radii place node_id p st1
                                   rest = Some st' /\ wf st' /\ P st').
    { apply IH; [exact Href|].
      intros st1 a1 c1 W1 P1 I1. apply Hgrow; auto. right. exact I1. }
    destruct (find (valid_against thr (node_positions st))
                   (candidates num_radii place p a)) as [c|] eqn:F.
    + apply IH'.
      * apply wf_grown; assumption.
      * unfold grown. simpl. rewrite length_app. lia.
      * apply (Hgrow st a c); auto. left. reflexivity.
    + destruct (candidates num_radii place p a).
      * apply IH'; assumption.
      * apply IH'; [apply wf_refresh; exact Hwf| |apply Href; assumption].
        rewrite refresh_nodes. exact Hid.
Qed.


Lemma draw_ok_pick st d :
  draw_ok st d -> (d_pick d < length (node_positions st))%nat.
Proof.
  unfold draw_ok, draw_okb. rewrite !andb_true_iff.
  intros [[[H _] _] _]. apply Nat.ltb_lt. exact H.
Qed.



Lemma grow_city_empty st d :
  growth_queue st = [] -> node_positions st <> [] ->
  step st d = Some (reseeded st (d_pick d)).
Proof.
  intros E Hn. unfold step, grow_city. rewrite E.
  destruct (node_positions st) eqn:N; [congruence|].
  unfold reseeded. rewrite N. reflexivity.
Qed.

Lemma grow_city_pop st d n rest p :
  growth_queue st = n :: rest ->
  nth_error (node_positions st) n = Some p ->
  step st d =
    attempts valid_factor num_radii place n p (popped st) (d_angles d).
Proof.
  intros E Hp. unfold step, grow_city. rewrite E. simpl. rewrite Hp.
  unfold popped. rewrite E. reflexivity.
Qed.

(** The proof principle for one call of [grow_city] on a well-formed
    state: the call returns, and it establishes [P] if the refill does and
    if, for the popped node, some [J] holds once the node is popped, is
    kept by the growth attempts, and implies [P]. *)
Lemma grow_city_preserve (P : state -> Prop) st d :
  wf st -> draw_ok st d ->
  (growth_queue st = [] -> P (reseeded st (d_pick d))) ->
  (forall n rest p, growth_queue st = n :: rest ->
     nth_error (node_positions st) n = Some p ->
     exists J : state -> Prop,
       J (popped st) /\
       (forall s, wf s -> J s -> J (refresh s)) /\
       (forall s a c, wf s -> J s -> In a (d_angles d) ->
          (n < length (node_positions s))%nat ->
          find (valid_against thr (node_positions s))
               (candidates num_radii place p a) = Some c ->
          J (grown s n c)) /\
       (forall s, J s -> P s)) ->
  exists st', step st d = Some st' /\ wf st' /\ P st'.
Proof.
  intros Hwf Hd Hempty Hpop.
  destruct (growth_queue st) as [|n rest] eqn:E.
  - exists (reseeded st (d_pick d)). split; [|split].
    + apply grow_city_empty; [exact E|apply Hwf].
    + apply wf_reseeded; [exact Hwf|]. apply draw_ok_pick. exact Hd.
    + apply Hempty. reflexivity.
  - destruct (wf_popped st n rest Hwf E) as [Hwp Hlt].
    destruct (nth_error (node_positions st) n) as [p|] eqn:Hp.
    2:{ apply nth_error_None in Hp. lia. }
    destruct (Hpop n rest p eq_refl Hp) as (J & J0 & Jr & Jg & JP).
    rewrite (grow_city_pop st d n rest p E Hp).
    destruct (attempts_preserve J n p (d_angles d) Jr Jg (popped st) Hwp)
      as (st' & Hrun & Hwf' & HJ).
    + exact Hlt.
    + exact J0.
    + exists st'. auto.
Qed.

Lemma wf_init : wf (init valid_factor).
Proof.
  unfold wf, init, coherent. simpl. repeat split.
  - discriminate.
  - discriminate.
  - constructor; [simpl; lia|constructor].
  - constructor.
Qed.

(** [grow_city] never raises on a state of a run. *)
Lemma grow_city_total st d :
  wf st -> draw_ok st d -> exists st', step st d = Some st' /\ wf st'.
Proof.
  intros Hwf Hd.
  destruct (grow_city_preserve (fun _ => True) st d Hwf Hd) as (st' & H & W & _).
  - trivial.
  - intros n rest p _ _. exists (fun _ => True). auto.
  - exists st'. auto.
Qed.

Lemma reachable_in_wf n st :
  reachable_in valid_factor num_radii place n st -> wf st.
Proof.
  induction 1 as [|n st d st' _ IH Hd Hs].
  - apply wf_init.
  - destruct (grow_city_total st d IH Hd) as (st'' & H & W).
    unfold step in H. rewrite Hs in H. injection H as <-. exact W.
Qed.


(** *** The spacing invariant *)




End LazyFacts.

(** ** Roads *)

Lemma add_road_ages_length r t a b :
  (length r <= length (add_road_ages r t a b) <= length r + 1)%nat.
Proof.
  unfold add_road_ages. destruct (Nat.eqb a b); [lia|].
  destruct (road_lookup _ r); [lia|]. rewrite length_app. simpl. lia.
Qed.

(** ** [normal_city_unplanned.py]: basic facts *)

Section UnplannedFacts.

Import Unplanned UnplannedInv.

Lemma add_node_cases st p :
  _add_node st p = (None, st) \/
  exists st', _add_node st p = (Some (length (node_positions st)), st') /\
    node_positions st' = node_positions st ++ [p] /\
    growth_queue st' = growth_queue st ++ [length (node_positions st)] /\
    road_ages st' = road_ages st /\
    current_time st' = current_time st /\
    position_to_node st' =
      (p, length (node_positions st)) :: position_to_node st /\
    kd_tree st' =
      if Nat.eqb (length (node_positions st) mod 10) 0
      then build_tree (node_positions st ++ [p]) else kd_tree st.
Proof.
  unfold _add_node. destruct (_is_valid_position st p); [right|left; reflexivity].
  eexists. split; [reflexivity|].
  destruct (Nat.eqb (length (node_positions st) mod 10) 0); simpl;
    repeat split; try reflexivity.
  destruct (node_positions st); reflexivity.
Qed.

Lemma attempt_grows node_id p st a :
  grows_by 1 st (attempt node_id p st a).
Proof.
  unfold attempt, grows_by.
  destruct (_find_valid_position st p a) as [c|]; [|lia].
  destruct (position_lookup c (position_to_node st)) as [e|].
  - simpl.
    pose proof (add_road_ages_length (road_ages st) (current_time st) node_id e).
    lia.
  - destruct (add_node_cases st c) as [E|(st' & E & Hn & _ & Hr & Ht & _)];
      rewrite E; [lia|].
    simpl. rewrite Hn, Hr, Ht, length_app. simpl.
    pose proof (add_road_ages_length (road_ages st) (current_time st)
                  node_id (length (node_positions st))).
    lia.
Qed.

Lemma attempts_grow node_id p angles : forall st,
  grows_by (length angles) st (fold_left (attempt node_id p) angles st).
Proof.
  induction angles as [|a rest IH]; intros st; simpl.
  - unfold grows_by. lia.
  - pose proof (attempt_grows node_id p st a) as H1.
    pose proof (IH (attempt node_id p st a)) as H2.
    unfold grows_by in *. lia.
Qed.

Lemma attempt_wf node_id p st a : wf st -> wf (attempt node_id p st a).
Proof.
  intros [Hn Hq]. unfold attempt.
  destruct (_find_valid_position st p a) as [c|]; [|split; assumption].
  destruct (position_lookup c (position_to_node st)) as [e|].
  - split; assumption.
  - destruct (add_node_cases st c) as [E|(st' & E & Hn' & Hq' & _)];
      rewrite E; [split; assumption|].
    unfold wf. simpl. rewrite Hn', Hq', length_app. simpl. split.
    + destruct (node_positions st); discriminate.
    + apply Forall_app. split.
      * eapply Forall_impl; [|exact Hq]. simpl. intros; lia.
      * constructor; [lia|constructor].
Qed.

Lemma attempts_wf node_id p angles : forall st,
  wf st -> wf (fold_left (attempt node_id p) angles st).
Proof.
  induction angles as [|a rest IH]; intros st H; simpl; [exact H|].
  apply IH. apply attempt_wf. exact H.
Qed.

Lemma unplanned_wf_init : wf init.
Proof.
  unfold wf, init. simpl. split; [discriminate|].
  constructor; [simpl; lia|constructor].
Qed.

Lemma unplanned_grow_city_total st d :
  wf st -> draw_ok st d -> exists st', grow_city st d = Some st' /\ wf st'.
Proof.
  intros [Hn Hq] Hd. unfold grow_city.
  destruct (growth_queue st) as [|n rest] eqn:E.
  - destruct (node_positions st) as [|p0 ps] eqn:N; [congruence|].
    eexists. split; [reflexivity|]. unfold wf. simpl.
    split; [discriminate|]. constructor; [|constructor].
    unfold draw_ok, draw_okb in Hd. rewrite !andb_true_iff in Hd.
    destruct Hd as [[[H _] _] _]. apply Nat.ltb_lt in H.
    rewrite N in H. exact H.
  - apply Forall_cons_iff in Hq. destruct Hq as [Hlt Hq]. simpl.
    destruct (nth_error (node_positions st) n) as [p|] eqn:Hp.
    2:{ apply nth_error_None in Hp. lia. }
    eexists. split; [reflexivity|]. apply attempts_wf.
    split; simpl; assumption.
Qed.

Lemma unplanned_reachable_wf n st : reachable_in n st -> wf st.
Proof.
  induction 1 as [|n st d st' _ IH Hd Hs].
  - apply unplanned_wf_init.
  - destruct (unplanned_grow_city_total st d IH Hd) as (st'' & H & W).
    rewrite Hs in H. injection H as <-. exact W.
Qed.

End UnplannedFacts.

(** ** The road set *)

Lemma road_id_eqb_eq (a b : road_id) : road_id_eqb a b = true <-> a = b.
Proof.
  destruct a as [a1 a2], b as [b1 b2]. unfold road_id_eqb. simpl.
  rewrite andb_true_iff, !Nat.eqb_eq. split.
  - intros [-> ->]. reflexivity.
  - intros E. injection E as -> ->. auto.
Qed.

Lemma road_id_eqb_refl (a : road_id) : road_id_eqb a a = true.
Proof. apply road_id_eqb_eq. reflexivity. Qed.

Lemma road_lookup_None k r : road_lookup k r = None <-> ~ In k (map fst r).
Proof.
  induction r as [|[k' t] r IH]; simpl.
  - tauto.
  - destruct (road_id_eqb k k') eqn:E.
    + apply road_id_eqb_eq in E. subst k'. split; [discriminate|].
      intros H. exfalso. apply H. left. reflexivity.
    + rewrite IH. split.
      * intros H [->|Hin]; [|tauto].
        rewrite road_id_eqb_refl in E. discriminate.
      * tauto.
Qed.

Lemma road_lookup_app k r k' t :
  road_lookup k (r ++ [(k', t)]) =
    match road_lookup k r with
    | Some x => Some x
    | None => if road_id_eqb k k' then Some t else None
    end.
Proof.
  induction r as [|[k0 t0] r IH]; simpl.
  - reflexivity.
  - destruct (road_id_eqb k k0); [reflexivity|exact IH].
Qed.

Lemma add_road_ages_self r t a : add_road_ages r t a a = r.
Proof. unfold add_road_ages. rewrite Nat.eqb_refl. reflexivity. Qed.

Lemma add_road_ages_lookup r t a b :
  a <> b ->
  road_lookup (Nat.min a b, Nat.max a b) (add_road_ages r t a b) =
    Some match road_lookup (Nat.min a b, Nat.max a b) r with
         | Some t0 => t0
         | None => t
         end.
Proof.
  intros Hab. unfold add_road_ages.
  destruct (Nat.eqb a b) eqn:E; [apply Nat.eqb_eq in E; contradiction|].
  destruct (road_lookup (Nat.min a b, Nat.max a b) r) as [t0|] eqn:L.
  - exact L.
  - rewrite road_lookup_app, L, road_id_eqb_refl. reflexivity.
Qed.

Lemma add_road_ages_again r t t' a b :
  add_road_ages (add_road_ages r t a b) t' a b = add_road_ages r t a b.
Proof.
  destruct (Nat.eq_dec a b) as [->|Hab].
  - rewrite !add_road_ages_self. reflexivity.
  - pose proof (add_road_ages_lookup r t a b Hab) as L.
    unfold add_road_ages at 1.
    destruct (Nat.eqb a b); [reflexivity|]. rewrite L. reflexivity.
Qed.

Lemma add_road_ages_swap r t a b :
  add_road_ages r t b a = add_road_ages r t a b.
Proof.
  unfold add_road_ages. rewrite (Nat.eqb_sym b a).
  rewrite (Nat.min_comm b a), (Nat.max_comm b a). reflexivity.
Qed.

Lemma add_road_ages_canonical r t a b :
  roads_canonical r -> roads_canonical (add_road_ages r t a b).
Proof.
  intros [Hnd Hlt]. unfold add_road_ages.
  destruct (Nat.eqb a b) eqn:E; [split; assumption|].
  apply Nat.eqb_neq in E.
  destruct (road_lookup (Nat.min a b, Nat.max a b) r) eqn:L;
    [split; assumption|].
  apply road_lookup_None in L. split.
  - rewrite map_app. simpl.
    apply NoDup_app; [exact Hnd|constructor; [intros []|constructor]|].
    intros k Hin [<-|[]]. contradiction.
  - apply Forall_app. split; [exact Hlt|].
    constructor; [simpl; lia|constructor].
Qed.

Lemma NoDup_nth_error_inj {A} (l : list A) i j x :
  NoDup l -> nth_error l i = Some x -> nth_error l j = Some x -> i = j.
Proof.
  intros Hnd Hi Hj. rewrite NoDup_nth_error in Hnd.
  apply Hnd.
  - apply nth_error_Some. congruence.
  - congruence.
Qed.

Lemma roads_canonical_unique r : roads_canonical r -> roads_unique r.
Proof.
  intros [Hnd Hlt] i j e e' Hi Hj Hsame.
  rewrite Forall_forall in Hlt.
  pose proof (Hlt e (nth_error_In _ _ Hi)) as Le.
  pose proof (Hlt e' (nth_error_In _ _ Hj)) as Le'.
  assert (Ek : fst e = fst e').
  { destruct e as [[x y] t], e' as [[x' y'] t']. simpl in *.
    unfold same_endpoints in Hsame. simpl in Hsame.
    destruct Hsame as [[E1 E2]|[E1 E2]]; subst; [reflexivity|lia]. }
  apply (NoDup_nth_error_inj (map fst r) i j (fst e) Hnd).
  - rewrite nth_error_map, Hi. reflexivity.
  - rewrite nth_error_map, Hj, Ek. reflexivity.
Qed.


(** ** The engine with the dirty flag: what holds in every state *)

Lemma find_pointwise {A} (f g : A -> bool) (l : list A) :
  (forall x, f x = g x) -> find f l = find g l.
Proof.
  intros H. induction l as [|x l IH]; simpl; [reflexivity|].
  rewrite H, IH. reflexivity.
Qed.

Section LazyFrame.

Import Lazy LazyInv.

Variable valid_factor : Q.
Variable num_radii : nat.
Variable place : pos -> pos.

Lemma same_graph_refl st : same_graph st st.
Proof. unfold same_graph. auto. Qed.

Lemma same_graph_refresh st : same_graph st (refresh st).
Proof.
  unfold same_graph.
  rewrite refresh_nodes, refresh_roads, refresh_queue, refresh_time. auto.
Qed.

Lemma is_valid_state st p :
  snd (_is_valid_position valid_factor st p) = refresh st.
Proof.
  unfold _is_valid_position. destruct (kd_tree (refresh st)); reflexivity.
Qed.

Lemma is_valid_refresh st p :
  fst (_is_valid_position valid_factor (refresh st) p) =
  fst (_is_valid_position valid_factor st p).
Proof. unfold _is_valid_position. rewrite refresh_idem. reflexivity. Qed.

(** The loop of [_find_valid_position] returns the first candidate that
    passes the validity test, whatever the state. *)
Lemma first_valid_find cands : forall st,
  first_valid valid_factor st cands =
    (find (fun p => fst (_is_valid_position valid_factor st p)) cands,
     match cands with [] => st | _ :: _ => refresh st end).
Proof.
  induction cands as [|c rest IH]; intros st; simpl; [reflexivity|].
  pose proof (is_valid_state st c) as S.
  destruct (_is_valid_position valid_factor st c) as [ok st1]. simpl in *.
  subst st1. destruct ok; [reflexivity|].
  rewrite IH, refresh_idem.
  rewrite (find_pointwise _ (fun p => fst (_is_valid_position valid_factor st p))).
  - destruct rest; reflexivity.
  - intros p. apply is_valid_refresh.
Qed.

Lemma find_valid_same_graph st base a res st1 :
  _find_valid_position valid_factor num_radii place st base a = (res, st1) ->
  same_graph st st1.
Proof.
  unfold _find_valid_position. rewrite first_valid_find.
  intros E. injection E as _ <-.
  destruct (candidates num_radii place base a);
    [apply same_graph_refl|apply same_graph_refresh].
Qed.

Lemma add_node_cases_lazy st p :
  (exists st1, _add_node valid_factor st p = (None, st1) /\ same_graph st st1)
  \/
  exists st1, _add_node valid_factor st p
                = (Some (length (node_positions st)), st1) /\
    node_positions st1 = node_positions st ++ [p] /\
    growth_queue st1 = growth_queue st ++ [length (node_positions st)] /\
    road_ages st1 = road_ages st /\
    current_time st1 = current_time st /\
    kd_tree_dirty st1 = true.
Proof.
  unfold _add_node.
  pose proof (is_valid_state st p) as S.
  destruct (_is_valid_position valid_factor st p) as [ok st1]. simpl in S.
  subst st1. destruct ok.
  - right. eexists. rewrite refresh_nodes. split; [reflexivity|]. simpl.
    rewrite ?refresh_nodes, ?refresh_queue, ?refresh_roads, ?refresh_time.
    auto.
  - left. eexists. split; [reflexivity|apply same_graph_refresh].
Qed.

Lemma attempt_grows_lazy node_id p st a st' :
  attempt valid_factor num_radii place node_id p st a = Some st' ->
  grows_by 1 st st'.
Proof.
  unfold attempt.
  destruct (_find_valid_position valid_factor num_radii place st p a)
    as [found st1] eqn:F.
  destruct (find_valid_same_graph _ _ _ _ _ F) as (Hn & Hr & _ & Ht).
  unfold grows_by. destruct found as [c|].
  2:{ intros E. injection E as <-. rewrite Hn, Hr, Ht. lia. }
  pose proof (same_graph_refresh st1) as (Hn2 & Hr2 & _ & Ht2).
  destruct (kd_tree (refresh st1)) as [t|]; [|discriminate].
  destruct (kd_query t c) as [dist idx].
  destruct (Qlt_bool dist (sq (min_distance * (1 # 2)))).
  - intros E. injection E as <-. simpl.
    pose proof (add_road_ages_length (road_ages (refresh st1))
                  (current_time (refresh st1)) node_id idx).
    rewrite Hn2, Hr2, Ht2, Hn, Hr, Ht in *. lia.
  - destruct (add_node_cases_lazy (refresh st1) c)
      as [(st3 & E3 & Hn3 & Hr3 & _ & Ht3)
         |(st3 & E3 & Hn3 & _ & Hr3 & Ht3 & _)]; rewrite E3.
    + intros E. injection E as <-.
      rewrite Hn3, Hr3, Ht3, Hn2, Hr2, Ht2, Hn, Hr, Ht. lia.
    + intros E. injection E as <-. simpl.
      pose proof (add_road_ages_length (road_ages st3) (current_time st3)
                    node_id (length (node_positions (refresh st1)))).
      rewrite Hn3, length_app, Hr3, Ht3, Hn2, Hr2, Ht2, Hn, Hr, Ht in *.
      simpl. lia.
Qed.

Lemma attempts_grow_lazy node_id p angles : forall st st',
  attempts valid_factor num_radii place node_id p st angles = Some st' ->
  grows_by (length angles) st st'.
Proof.
  induction angles as [|a rest IH]; intros st st'; simpl.
  - intros E. injection E as <-. unfold grows_by. lia.
  - destruct (attempt valid_factor num_radii place node_id p st a)
      as [st1|] eqn:A; [|discriminate].
    intros E. pose proof (attempt_grows_lazy _ _ _ _ _ A) as H1.
    pose proof (IH _ _ E) as H2. unfold grows_by in *. lia.
Qed.

End LazyFrame.

(** ** One call of [grow_city], in every state *)

Section LazyStep.

Import Lazy LazyInv.

Variable valid_factor : Q.
Variable num_radii : nat.
Variable place : pos -> pos.

Lemma grow_city_effect_lazy st d st' :
  grow_city valid_factor num_radii place st d = Some st' ->
  match growth_queue st with
  | [] =>
      current_time st' = current_time st /\
      node_positions st' = node_positions st /\
      road_ages st' = road_ages st /\
      (node_positions st <> [] -> growth_queue st' = [d_pick d])
  | _ :: _ =>
      current_time st' = S (current_time st) /\
      (length (node_positions st) <= length (node_positions st')
         <= length (node_positions st) + length (d_angles d))%nat /\
      (length (road_ages st) <= length (road_ages st')
         <= length (road_ages st) + length (d_angles d))%nat
  end.
Proof.
  unfold grow_city. destruct (growth_queue st) as [|n rest].
  - destruct (node_positions st) eqn:N; intros E; injection E as <-; simpl.
    + rewrite N. repeat split; try reflexivity. congruence.
    + repeat split; reflexivity.
  - simpl. destruct (nth_error (node_positions st) n) as [p|]; [|discriminate].
    intros E. apply attempts_grow_lazy in E. unfold grows_by in E. simpl in E.
    exact E.
Qed.

End LazyStep.

Lemma grow_city_effect_unplanned st d st' :
  Unplanned.grow_city st d = Some st' ->
  match Unplanned.growth_queue st with
  | [] =>
      Unplanned.current_time st' = Unplanned.current_time st /\
      Unplanned.node_positions st' = Unplanned.node_positions st /\
      Unplanned.road_ages st' = Unplanned.road_ages st /\
      (Unplanned.node_positions st <> [] ->
       Unplanned.growth_queue st' = [d_pick d])
  | _ :: _ =>
      Unplanned.current_time st' = S (Unplanned.current_time st) /\
      (length (Unplanned.node_positions st)
         <= length (Unplanned.node_positions st')
         <= length (Unplanned.node_positions st) + length (d_angles d))%nat /\
      (length (Unplanned.road_ages st) <= length (Unplanned.road_ages st')
         <= length (Unplanned.road_ages st) + length (d_angles d))%nat
  end.
Proof.
  unfold Unplanned.grow_city.
  destruct (Unplanned.growth_queue st) as [|n rest].
  - destruct (Unplanned.node_positions st) eqn:N; intros E;
      injection E as <-; simpl.
    + rewrite N. repeat split; try reflexivity. congruence.
    + repeat split; reflexivity.
  - simpl.
    destruct (nth_error (Unplanned.node_positions st) n) as [p|];
      [|discriminate].
    intros E. injection E as <-.
    pose proof (attempts_grow n p (d_angles d)
      (Unplanned.mkState (Unplanned.node_positions st)
         (Unplanned.position_to_node st) (Unplanned.road_ages st) rest
         (S (Unplanned.current_time st)) (Unplanned.kd_tree st))) as G.
    unfold UnplannedInv.grows_by in G. simpl in G. exact G.
Qed.

(** ** The index is never read stale (dirty-flag engine) *)

Section LazyIndex.

Import Lazy LazyInv.

Variable valid_factor : Q.





End LazyIndex.

(** ** The first candidate that passes *)




(** ** A found candidate is never merged (dirty-flag engine) *)

Section LazyCreate.

Import Lazy LazyInv.

Variable valid_factor : Q.
Variable num_radii : nat.
Variable place : pos -> pos.
Hypothesis half_le_factor : 1 # 2 <= valid_factor.

Lemma road_lookup_out_of_range r a n :
  Forall (fun e : road_id * nat =>
            (fst (fst e) < n)%nat /\ (snd (fst e) < n)%nat) r ->
  road_lookup (a, n) r = None.
Proof.
  intros H. apply road_lookup_None. intros Hin.
  apply in_map_iff in Hin. destruct Hin as ([[x y] t] & E & Hin).
  rewrite Forall_forall in H. specialize (H _ Hin). simpl in *.
  injection E as -> ->. lia.
Qed.

Lemma grown_road st node_id c :
  wf st -> (node_id < length (node_positions st))%nat ->
  road_ages (grown st node_id c) =
    road_ages st
    ++ [((node_id, length (node_positions st)), current_time st)].
Proof.
  intros (_ & _ & _ & Hr) Hlt. unfold grown, add_road_ages. simpl.
  destruct (Nat.eqb node_id (length (node_positions st))) eqn:E.
  { apply Nat.eqb_eq in E. lia. }
  rewrite Nat.min_l, Nat.max_r by lia.
  rewrite (road_lookup_out_of_range _ _ _ Hr). reflexivity.
Qed.

Lemma find_valid_creates st node_id base a new_pos st1 :
  wf st -> (node_id < length (node_positions st))%nat ->
  _find_valid_position valid_factor num_radii place st base a
    = (Some new_pos, st1) ->
  exists t,
    kd_tree (refresh st1) = Some t /\
    kd_points t = node_positions st /\
    sq (min_distance * valid_factor) <= fst (kd_query t new_pos) /\
    Qlt_bool (fst (kd_query t new_pos)) (sq (min_distance * (1 # 2))) = false /\
    attempt valid_factor num_radii place node_id base st a
      = Some (grown st node_id new_pos) /\
    node_positions (grown st node_id new_pos) = node_positions st ++ [new_pos] /\
    road_ages (grown st node_id new_pos) =
      road_ages st
      ++ [((node_id, length (node_positions st)), current_time st)].
Proof.
  intros Hwf Hlt F. pose proof Hwf as (Hn & Hc & _).
  pose proof (attempt_spec valid_factor num_radii place half_le_factor
                node_id base st a Hc Hn) as A.
  unfold _find_valid_position in F.
  rewrite (first_valid_spec valid_factor _ st Hc) in F.
  injection F as F S1. rewrite F in A.
  destruct (find_some _ _ F) as [Hin Hv].
  destruct (candidates num_radii place base a) as [|c0 cs]; [contradiction|].
  subst st1. rewrite refresh_idem.
  destruct (refresh_clean st Hc) as [_ T].
  destruct (build_tree_some _ Hn) as [t Ht].
  exists t. rewrite T.
  pose proof (kd_query_valid (min_distance * valid_factor) t new_pos) as Hq.
  rewrite (build_tree_points _ _ Ht), Hv in Hq. apply Qle_bool_iff in Hq.
  split; [exact Ht|]. split; [apply (build_tree_points _ _ Ht)|].
  split; [exact Hq|]. split.
  - apply Qlt_bool_false.
    pose proof (merge_threshold_le valid_factor half_le_factor). lra.
  - split; [exact A|]. split; [reflexivity|].
    apply grown_road; assumption.
Qed.

End LazyCreate.

(** ** How far one growth attempt reaches *)





Lemma linspace_3_range d :
  In d (linspace min_distance (2 * min_distance) 3) ->
  0 <= d /\ d <= 2 * min_distance.
Proof.
  simpl. intros H.
  repeat (destruct H as [<-|H]; [split; unfold Qle; simpl; lia|]).
  contradiction.
Qed.



(** *** [normal_city_unplanned_enhance.py]: every call reaches
    [2 * min_distance] further at most *)


(** ** Rounding and the grid ([Simcity_surburbs.py]) *)








Lemma Qlt_bool_proper a a' b b' :
  a == a' -> b == b' -> Qlt_bool a b = Qlt_bool a' b'.
Proof.
  intros Ea Eb. apply eq_true_iff_eq. rewrite !Qlt_bool_iff.
  rewrite Ea, Eb. tauto.
Qed.

Lemma round_half_even_proper x y :
  x == y -> Suburbs.round_half_even x = Suburbs.round_half_even y.
Proof.
  intros E. unfold Suburbs.round_half_even.
  rewrite (Qfloor_comp _ _ E).
  rewrite (Qlt_bool_proper (x - inject_Z (Qfloor y)) (y - inject_Z (Qfloor y))
             (1 # 2) (1 # 2)) by (rewrite ?E; reflexivity).
  rewrite (Qlt_bool_proper (1 # 2) (1 # 2) (x - inject_Z (Qfloor y))
             (y - inject_Z (Qfloor y))) by (rewrite ?E; reflexivity).
  reflexivity.
Qed.

Lemma grid_size_nonzero : ~ Suburbs.grid_size == 0.
Proof. discriminate. Qed.













(** *** [normal_city_unplanned.py]: every call reaches
    [2 * min_distance] further at most *)




(** ** Runs that are sure to exist *)


Section LazyRuns.

Import Lazy LazyInv.

Variable valid_factor : Q.
Variable num_radii : nat.
Variable place : pos -> pos.
Hypothesis half_le_factor : 1 # 2 <= valid_factor.



End LazyRuns.
(** * The claims of the specification *)

(** C6.  [_add_road] on the road set [r] at clock value [t]: a call with
    twice the same node changes nothing; a call with two different nodes
    leaves a road under the canonical key [(min, max)], with the timestamp
    it already had or else [t]; a road set with canonical keys, each at
    most once, stays so, hence never holds two entries for the same
    unordered pair of endpoints; a second call with the same pair, in
    either order and at any later clock value, changes nothing. *)
Theorem C6_add_road_canonical_idempotent :
  forall (r : roads) (t t' a b : nat),
    add_road_ages r t a a = r /\
    (a <> b ->
     road_lookup (Nat.min a b, Nat.max a b) (add_road_ages r t a b) =
       Some match road_lookup (Nat.min a b, Nat.max a b) r with
            | Some t0 => t0
            | None => t
            end) /\
    (roads_canonical r ->
     roads_canonical (add_road_ages r t a b) /\
     roads_unique (add_road_ages r t a b)) /\
    add_road_ages (add_road_ages r t a b) t' a b = add_road_ages r t a b /\
    add_road_ages (add_road_ages r t a b) t' b a = add_road_ages r t a b /\
    (forall st, Unplanned.road_ages (Unplanned._add_road st a b) =
       add_road_ages (Unplanned.road_ages st) (Unplanned.current_time st) a b) /\
    (forall st, Lazy.road_ages (Lazy._add_road st a b) =
       add_road_ages (Lazy.road_ages st) (Lazy.current_time st) a b).
Proof.
  intros r t t' a b. split; [apply add_road_ages_self|].
  split; [apply add_road_ages_lookup|].
  split.
  - intros H. pose proof (add_road_ages_canonical r t a b H) as C.
    split; [exact C|apply roads_canonical_unique; exact C].
  - split; [apply add_road_ages_again|].
    split; [|split; reflexivity].
    rewrite add_road_ages_swap. apply add_road_ages_again.
Qed.

Lemma C6_add_road_canonical_idempotent_witness :
  add_road_ages [] 7 2 2 = [] /\
  road_lookup (1, 2)%nat (add_road_ages [((1, 2)%nat, 4%nat)] 7 2 1) = Some 4%nat /\
  roads_unique (add_road_ages [((1, 2)%nat, 4%nat)] 7 3 1) /\
  add_road_ages (add_road_ages [((1, 2)%nat, 4%nat)] 7 3 1) 9 1 3
    = [((1, 2)%nat, 4%nat); ((1, 3)%nat, 7%nat)].
Proof.
  destruct (C6_add_road_canonical_idempotent [((1, 2)%nat, 4%nat)] 7 9 3 1)
    as (_ & _ & H3 & _ & H5 & _).
  destruct (C6_add_road_canonical_idempotent [((1, 2)%nat, 4%nat)] 7 9 2 1)
    as (_ & H2 & _).
  destruct (C6_add_road_canonical_idempotent [] 7 9 2 1) as (H1 & _).
  split; [exact H1|]. split; [apply H2; discriminate|]. split.
  - apply H3. split.
    + constructor; [intros []|constructor].
    + constructor; [simpl; lia|constructor].
  - rewrite H5. reflexivity.
Defined.

(** ** Totality on the states of a run *)

Lemma enhance_half_le : 1 # 2 <= 1.
Proof. lra. Qed.

Lemma suburbs_half_le : 1 # 2 <= 9 # 10.
Proof. lra. Qed.

Lemma enhance_total n st d :
  Enhance.reachable_in n st -> Lazy.draw_ok st d ->
  exists st', Enhance.grow_city st d = Some st'.
Proof.
  intros R D. pose proof (reachable_in_wf 1 5 Enhance.place enhance_half_le n st R) as W.
  destruct (grow_city_total 1 5 Enhance.place enhance_half_le st d W D)
    as (st' & H & _).
  exists st'. exact H.
Qed.

Lemma suburbs_total n st d :
  Suburbs.reachable_in n st -> Lazy.draw_ok st d ->
  exists st', Suburbs.grow_city st d = Some st'.
Proof.
  intros R D.
  pose proof (reachable_in_wf (9 # 10) 3 Suburbs._snap_to_grid
                suburbs_half_le n st R) as W.
  destruct (grow_city_total (9 # 10) 3 Suburbs._snap_to_grid suburbs_half_le
              st d W D) as (st' & H & _).
  exists st'. exact H.
Qed.

Lemma unplanned_total n st d :
  Unplanned.reachable_in n st -> Unplanned.draw_ok st d ->
  exists st', Unplanned.grow_city st d = Some st'.
Proof.
  intros R D. pose proof (unplanned_reachable_wf n st R) as W.
  destruct (unplanned_grow_city_total st d W D) as (st' & H & _).
  exists st'. exact H.
Qed.

(** ** C2: what [_add_node] does on success *)

(** C2, as stated, fails: in the three files a successful [_add_node]
    appends the new id to [growth_queue] itself.  On the blank generator,
    adding the origin returns id 0 and leaves the queue [[0]]. *)
Lemma C2_add_node_queues_the_new_id :
  (fst (Unplanned._add_node Unplanned.blank origin) = Some 0%nat /\
   Unplanned.growth_queue (snd (Unplanned._add_node Unplanned.blank origin))
     <> Unplanned.growth_queue Unplanned.blank) /\
  (fst (Enhance._add_node Lazy.blank origin) = Some 0%nat /\
   Lazy.growth_queue (snd (Enhance._add_node Lazy.blank origin))
     <> Lazy.growth_queue Lazy.blank) /\
  (fst (Suburbs._add_node Lazy.blank origin) = Some 0%nat /\
   Lazy.growth_queue (snd (Suburbs._add_node Lazy.blank origin))
     <> Lazy.growth_queue Lazy.blank).
Proof.
  repeat split; try reflexivity; simpl; discriminate.
Qed.

Lemma lazy_add_node_success f st p id st' :
  Lazy._add_node f st p = (Some id, st') ->
  id = length (Lazy.node_positions st) /\
  Lazy.node_positions st' = Lazy.node_positions st ++ [p] /\
  Lazy.kd_tree_dirty st' = true /\
  Lazy.growth_queue st' = Lazy.growth_queue st ++ [id] /\
  Lazy.road_ages st' = Lazy.road_ages st /\
  Lazy.current_time st' = Lazy.current_time st.
Proof.
  intros E.
  destruct (add_node_cases_lazy f st p)
    as [(st1 & E1 & _)|(st1 & E1 & Hn & Hq & Hr & Ht & Hd)];
    rewrite E1 in E; [discriminate|].
  injection E as <- <-. auto 10.
Qed.

(** C2, amended.  A successful [_add_node] gives the node the next
    sequential id (the number of nodes so far), stores its position at the
    end of [node_positions], and appends the new id to [growth_queue]
    itself; roads and clock are untouched.  With the dirty flag (enhance,
    suburbs) the index is marked stale; in [normal_city_unplanned.py] there
    is no flag: the index is rebuilt on the spot when the id is a multiple
    of 10 and left as it is otherwise. *)
Theorem C2_add_node_success :
  (forall st p id st',
     Unplanned._add_node st p = (Some id, st') ->
     id = length (Unplanned.node_positions st) /\
     Unplanned.node_positions st' = Unplanned.node_positions st ++ [p] /\
     Unplanned.growth_queue st' = Unplanned.growth_queue st ++ [id] /\
     Unplanned.road_ages st' = Unplanned.road_ages st /\
     Unplanned.current_time st' = Unplanned.current_time st /\
     Unplanned.kd_tree st' =
       if Nat.eqb (id mod 10) 0
       then build_tree (Unplanned.node_positions st ++ [p])
       else Unplanned.kd_tree st) /\
  (forall st p id st',
     Enhance._add_node st p = (Some id, st') ->
     id = length (Lazy.node_positions st) /\
     Lazy.node_positions st' = Lazy.node_positions st ++ [p] /\
     Lazy.kd_tree_dirty st' = true /\
     Lazy.growth_queue st' = Lazy.growth_queue st ++ [id] /\
     Lazy.road_ages st' = Lazy.road_ages st /\
     Lazy.current_time st' = Lazy.current_time st) /\
  (forall st p id st',
     Suburbs._add_node st p = (Some id, st') ->
     id = length (Lazy.node_positions st) /\
     Lazy.node_positions st' = Lazy.node_positions st ++ [p] /\
     Lazy.kd_tree_dirty st' = true /\
     Lazy.growth_queue st' = Lazy.growth_queue st ++ [id] /\
     Lazy.road_ages st' = Lazy.road_ages st /\
     Lazy.current_time st' = Lazy.current_time st).
Proof.
  split; [|split].
  - intros st p id st' E.
    destruct (add_node_cases st p)
      as [E1|(st1 & E1 & Hn & Hq & Hr & Ht & _ & Hk)];
      rewrite E1 in E; [discriminate|].
    injection E as <- <-. auto 10.
  - intros st p id st'. apply lazy_add_node_success.
  - intros st p id st'. apply lazy_add_node_success.
Qed.

Lemma C2_add_node_success_witness :
  Unplanned.growth_queue Unplanned.init = [0%nat] /\
  Lazy.growth_queue Enhance.init = [0%nat] /\
  Lazy.kd_tree_dirty Suburbs.init = true.
Proof.
  destruct C2_add_node_success as (HU & HE & HS).
  destruct (HU Unplanned.blank origin 0%nat Unplanned.init eq_refl)
    as (_ & _ & Q1 & _).
  destruct (HE Lazy.blank origin 0%nat Enhance.init eq_refl)
    as (_ & _ & _ & Q2 & _).
  destruct (HS Lazy.blank origin 0%nat Suburbs.init eq_refl)
    as (_ & _ & D3 & _).
  split; [exact Q1|]. split; [exact Q2|exact D3].
Defined.

(** ** C4: a call with an empty queue *)

Lemma lazy_grow_city_refill f n pl st d :
  Lazy.growth_queue st = [] -> Lazy.node_positions st <> [] ->
  exists st', Lazy.grow_city f n pl st d = Some st' /\
    Lazy.growth_queue st' <> [] /\
    length (Lazy.node_positions st') = length (Lazy.node_positions st) /\
    length (Lazy.road_ages st') = length (Lazy.road_ages st) /\
    Lazy.current_time st' = Lazy.current_time st.
Proof.
  intros Hq Hn. unfold Lazy.grow_city. rewrite Hq.
  destruct (Lazy.node_positions st) eqn:N; [congruence|].
  eexists. split; [reflexivity|]. simpl.
  repeat split; try reflexivity. discriminate.
Qed.

(** C4.  When [grow_city] is called with an empty queue on a graph with
    at least one node, it returns, the queue is not empty afterwards, and
    the number of nodes, the number of roads and the clock are what they
    were. *)
Theorem C4_empty_queue_refill :
  (forall st d,
     Unplanned.growth_queue st = [] -> Unplanned.node_positions st <> [] ->
     exists st', Unplanned.grow_city st d = Some st' /\
       Unplanned.growth_queue st' <> [] /\
       length (Unplanned.node_positions st')
         = length (Unplanned.node_positions st) /\
       length (Unplanned.road_ages st') = length (Unplanned.road_ages st) /\
       Unplanned.current_time st' = Unplanned.current_time st) /\
  (forall st d,
     Lazy.growth_queue st = [] -> Lazy.node_positions st <> [] ->
     exists st', Enhance.grow_city st d = Some st' /\
       Lazy.growth_queue st' <> [] /\
       length (Lazy.node_positions st') = length (Lazy.node_positions st) /\
       length (Lazy.road_ages st') = length (Lazy.road_ages st) /\
       Lazy.current_time st' = Lazy.current_time st) /\
  (forall st d,
     Lazy.growth_queue st = [] -> Lazy.node_positions st <> [] ->
     exists st', Suburbs.grow_city st d = Some st' /\
       Lazy.growth_queue st' <> [] /\
       length (Lazy.node_positions st') = length (Lazy.node_positions st) /\
       length (Lazy.road_ages st') = length (Lazy.road_ages st) /\
       Lazy.current_time st' = Lazy.current_time st).
Proof.
  split; [|split].
  - intros st d Hq Hn. unfold Unplanned.grow_city. rewrite Hq.
    destruct (Unplanned.node_positions st) eqn:N; [congruence|].
    eexists. split; [reflexivity|]. simpl.
    repeat split; try reflexivity. discriminate.
  - intros st d. apply lazy_grow_city_refill.
  - intros st d. apply lazy_grow_city_refill.
Qed.

Lemma C4_empty_queue_refill_witness :
  exists st',
    Enhance.grow_city
      (Lazy.mkState [origin; (3 # 100, 0)] [((0, 1)%nat, 1%nat)] [] 2 None true)
      (mkDraw 1 [(1, 0)]) = Some st' /\
    Lazy.growth_queue st' <> [] /\
    length (Lazy.node_positions st') = 2%nat /\
    length (Lazy.road_ages st') = 1%nat /\
    Lazy.current_time st' = 2%nat.
Proof.
  destruct C4_empty_queue_refill as (_ & HE & _).
  apply (HE (Lazy.mkState [origin; (3 # 100, 0)] [((0, 1)%nat, 1%nat)] []
                          2 None true) (mkDraw 1 [(1, 0)])).
  - reflexivity.
  - simpl. discriminate.
Defined.

(** ** C5: the clock *)

Lemma lazy_run_clock f n pl ds : forall st st',
  Lazy.run f n pl st ds = Some st' ->
  (Lazy.current_time st <= Lazy.current_time st')%nat.
Proof.
  induction ds as [|d rest IH]; intros st st'; simpl.
  - intros E. injection E as <-. lia.
  - destruct (draw_okb _ d); [|discriminate].
    destruct (Lazy.grow_city f n pl st d) as [st1|] eqn:G; [|discriminate].
    intros E. apply IH in E.
    apply grow_city_effect_lazy in G.
    destruct (Lazy.growth_queue st); destruct G as (Ht & _); lia.
Qed.

Lemma lazy_step_clock f n pl st d st' :
  Lazy.grow_city f n pl st d = Some st' ->
  Lazy.current_time st' =
    (Lazy.current_time st
     + match Lazy.growth_queue st with [] => 0 | _ :: _ => 1 end)%nat.
Proof.
  intros G. apply grow_city_effect_lazy in G.
  destruct (Lazy.growth_queue st); destruct G as (Ht & _); lia.
Qed.

(** C5.  In the three files: a call of [grow_city] that returns leaves
    the clock as it was when the queue was empty and one higher when a
    node was taken from the queue; hence the clock never decreases along
    a run; and on every state of a run from a fresh generator the call
    does return. *)
Theorem C5_clock_monotone :
  ((forall st d st', Unplanned.grow_city st d = Some st' ->
      Unplanned.current_time st' =
        (Unplanned.current_time st
         + match Unplanned.growth_queue st with [] => 0 | _ :: _ => 1 end)%nat)
   /\ (forall ds st st', Unplanned.run st ds = Some st' ->
        (Unplanned.current_time st <= Unplanned.current_time st')%nat)
   /\ (forall n st d, Unplanned.reachable_in n st -> Unplanned.draw_ok st d ->
        exists st', Unplanned.grow_city st d = Some st')) /\
  ((forall st d st', Enhance.grow_city st d = Some st' ->
      Lazy.current_time st' =
        (Lazy.current_time st
         + match Lazy.growth_queue st with [] => 0 | _ :: _ => 1 end)%nat)
   /\ (forall ds st st', Enhance.run st ds = Some st' ->
        (Lazy.current_time st <= Lazy.current_time st')%nat)
   /\ (forall n st d, Enhance.reachable_in n st -> Lazy.draw_ok st d ->
        exists st', Enhance.grow_city st d = Some st')) /\
  ((forall st d st', Suburbs.grow_city st d = Some st' ->
      Lazy.current_time st' =
        (Lazy.current_time st
         + match Lazy.growth_queue st with [] => 0 | _ :: _ => 1 end)%nat)
   /\ (forall ds st st', Suburbs.run st ds = Some st' ->
        (Lazy.current_time st <= Lazy.current_time st')%nat)
   /\ (forall n st d, Suburbs.reachable_in n st -> Lazy.draw_ok st d ->
        exists st', Suburbs.grow_city st d = Some st')).
Proof.
  assert (U : forall st d st', Unplanned.grow_city st d = Some st' ->
      Unplanned.current_time st' =
        (Unplanned.current_time st
         + match Unplanned.growth_queue st with [] => 0 | _ :: _ => 1 end)%nat).
  { intros st d st' G. apply grow_city_effect_unplanned in G.
    destruct (Unplanned.growth_queue st); destruct G as (Ht & _); lia. }
  split; [|split].
  - split; [exact U|]. split; [|exact unplanned_total].
    induction ds as [|d rest IH]; intros st st'; simpl.
    + intros E. injection E as <-. lia.
    + destruct (draw_okb _ d); [|discriminate].
      destruct (Unplanned.grow_city st d) as [st1|] eqn:G; [|discriminate].
      intros E. apply IH in E. apply U in G. lia.
  - split; [intros st d st'; apply lazy_step_clock|].
    split; [intros ds st st'; apply lazy_run_clock|exact enhance_total].
  - split; [intros st d st'; apply lazy_step_clock|].
    split; [intros ds st st'; apply lazy_run_clock|exact suburbs_total].
Qed.

Lemma C5_clock_monotone_witness :
  exists st', Enhance.grow_city Enhance.init (mkDraw 0 [(1, 0)]) = Some st' /\
    Lazy.current_time st' = 1%nat.
Proof.
  destruct C5_clock_monotone as (_ & (Hstep & _ & Htot) & _).
  destruct (Htot 0%nat Enhance.init (mkDraw 0 [(1, 0)])) as [st' G].
  - apply Lazy.reach_init.
  - reflexivity.
  - exists st'. split; [exact G|]. apply (Hstep _ _ _ G).
Defined.

(** ** C8: the growth of one call *)

Lemma lazy_step_bound f n pl st d st' :
  (length (d_angles d) <= 3)%nat ->
  Lazy.grow_city f n pl st d = Some st' ->
  (length (Lazy.node_positions st) <= length (Lazy.node_positions st')
     <= length (Lazy.node_positions st) + 3)%nat /\
  (length (Lazy.road_ages st) <= length (Lazy.road_ages st')
     <= length (Lazy.road_ages st) + 3)%nat.
Proof.
  intros L G. apply grow_city_effect_lazy in G.
  destruct (Lazy.growth_queue st).
  - destruct G as (_ & -> & -> & _). lia.
  - lia.
Qed.

(** C8.  In the three files, whatever the state: a call of [grow_city]
    with at most three growth attempts (the range of the random attempt
    count) that returns has added at most 3 nodes and at most 3 roads, and
    removed none; and on every state of a run from a fresh generator the
    call does return. *)
Theorem C8_step_growth_bound :
  ((forall st d st', (length (d_angles d) <= 3)%nat ->
      Unplanned.grow_city st d = Some st' ->
      (length (Unplanned.node_positions st)
         <= length (Unplanned.node_positions st')
         <= length (Unplanned.node_positions st) + 3)%nat /\
      (length (Unplanned.road_ages st) <= length (Unplanned.road_ages st')
         <= length (Unplanned.road_ages st) + 3)%nat)
   /\ (forall n st d, Unplanned.reachable_in n st -> Unplanned.draw_ok st d ->
        exists st', Unplanned.grow_city st d = Some st')) /\
  ((forall st d st', (length (d_angles d) <= 3)%nat ->
      Enhance.grow_city st d = Some st' ->
      (length (Lazy.node_positions st) <= length (Lazy.node_positions st')
         <= length (Lazy.node_positions st) + 3)%nat /\
      (length (Lazy.road_ages st) <= length (Lazy.road_ages st')
         <= length (Lazy.road_ages st) + 3)%nat)
   /\ (forall n st d, Enhance.reachable_in n st -> Lazy.draw_ok st d ->
        exists st', Enhance.grow_city st d = Some st')) /\
  ((forall st d st', (length (d_angles d) <= 3)%nat ->
      Suburbs.grow_city st d = Some st' ->
      (length (Lazy.node_positions st) <= length (Lazy.node_positions st')
         <= length (Lazy.node_positions st) + 3)%nat /\
      (length (Lazy.road_ages st) <= length (Lazy.road_ages st')
         <= length (Lazy.road_ages st) + 3)%nat)
   /\ (forall n st d, Suburbs.reachable_in n st -> Lazy.draw_ok st d ->
        exists st', Suburbs.grow_city st d = Some st')).
Proof.
  split; [|split].
  - split; [|exact unplanned_total].
    intros st d st' L G. apply grow_city_effect_unplanned in G.
    destruct (Unplanned.growth_queue st).
    + destruct G as (_ & -> & -> & _). lia.
    + lia.
  - split; [intros st d st'; apply lazy_step_bound|exact enhance_total].
  - split; [intros st d st'; apply lazy_step_bound|exact suburbs_total].
Qed.

Lemma C8_step_growth_bound_witness :
  exists st',
    Enhance.grow_city Enhance.init (mkDraw 0 [(1, 0); (0, 1); (-1, 0)])
      = Some st' /\
    (length (Lazy.node_positions st') <= 1 + 3)%nat /\
    (length (Lazy.road_ages st') <= 0 + 3)%nat.
Proof.
  destruct C8_step_growth_bound as (_ & (Hb & Htot) & _).
  destruct (Htot 0%nat Enhance.init (mkDraw 0 [(1, 0); (0, 1); (-1, 0)]))
    as [st' G].
  - apply Lazy.reach_init.
  - reflexivity.
  - exists st'. split; [exact G|].
    destruct (Hb Enhance.init (mkDraw 0 [(1, 0); (0, 1); (-1, 0)]) st'
                 (le_n 3) G) as [[_ H1] [_ H2]].
    split; [exact H1|exact H2].
Defined.

(** ** C1: the spacing of the nodes *)





(** ** C3: the index read by a query *)




(** ** C7: the candidate search *)




(** ** C10: the merge branch *)

(** C10.  In the two files that rebuild the index whenever it is dirty,
    on every well-formed state (every state of a run and every state in
    the middle of the growth loop is one): when [_find_valid_position]
    returns a candidate, the query that follows reads an index holding
    exactly the current nodes and reports a distance at least the validity
    threshold ([min_distance], or [0.9 * min_distance] in
    [Simcity_surburbs.py]), which is strictly above the merge threshold
    [0.5 * min_distance]; the test [dist < 0.5 * min_distance] fails, and
    the attempt creates a node at the candidate, with the next id, and
    the road from the origin node to it, to no pre-existing node. *)
Theorem C10_merge_branch_unreachable :
  sq (min_distance * (1 # 2)) < sq (min_distance * 1) /\
  sq (min_distance * (1 # 2)) < sq (min_distance * (9 # 10)) /\
  (forall n st, Enhance.reachable_in n st -> LazyInv.wf st) /\
  (forall n st, Suburbs.reachable_in n st -> LazyInv.wf st) /\
  (forall st node_id base a new_pos st1,
     LazyInv.wf st -> (node_id < length (Lazy.node_positions st))%nat ->
     Enhance._find_valid_position st base a = (Some new_pos, st1) ->
     exists t,
       Lazy.kd_tree (Lazy.refresh st1) = Some t /\
       kd_points t = Lazy.node_positions st /\
       sq (min_distance * 1) <= fst (kd_query t new_pos) /\
       Qlt_bool (fst (kd_query t new_pos)) (sq (min_distance * (1 # 2)))
         = false /\
       Enhance.attempt node_id base st a
         = Some (LazyInv.grown st node_id new_pos) /\
       Lazy.node_positions (LazyInv.grown st node_id new_pos)
         = Lazy.node_positions st ++ [new_pos] /\
       Lazy.road_ages (LazyInv.grown st node_id new_pos) =
         Lazy.road_ages st
         ++ [((node_id, length (Lazy.node_positions st)),
              Lazy.current_time st)]) /\
  (forall st node_id base a new_pos st1,
     LazyInv.wf st -> (node_id < length (Lazy.node_positions st))%nat ->
     Suburbs._find_valid_position st base a = (Some new_pos, st1) ->
     exists t,
       Lazy.kd_tree (Lazy.refresh st1) = Some t /\
       kd_points t = Lazy.node_positions st /\
       sq (min_distance * (9 # 10)) <= fst (kd_query t new_pos) /\
       Qlt_bool (fst (kd_query t new_pos)) (sq (min_distance * (1 # 2)))
         = false /\
       Suburbs.attempt node_id base st a
         = Some (LazyInv.grown st node_id new_pos) /\
       Lazy.node_positions (LazyInv.grown st node_id new_pos)
         = Lazy.node_positions st ++ [new_pos] /\
       Lazy.road_ages (LazyInv.grown st node_id new_pos) =
         Lazy.road_ages st
         ++ [((node_id, length (Lazy.node_positions st)),
              Lazy.current_time st)]).
Proof.
  split; [reflexivity|]. split; [reflexivity|].
  split; [apply (reachable_in_wf 1 5 Enhance.place enhance_half_le)|].
  split; [apply (reachable_in_wf (9 # 10) 3 Suburbs._snap_to_grid
                   suburbs_half_le)|].
  split.
  - intros st node_id base a new_pos st1.
    apply (find_valid_creates 1 5 Enhance.place enhance_half_le).
  - intros st node_id base a new_pos st1.
    apply (find_valid_creates (9 # 10) 3 Suburbs._snap_to_grid
             suburbs_half_le).
Qed.

Lemma C10_merge_branch_unreachable_witness :
  Suburbs.attempt 0 origin Suburbs.init (1, 0) =
    Some (LazyInv.grown Suburbs.init 0
            (inject_Z 1 * Suburbs.grid_size, inject_Z 0 * Suburbs.grid_size)).
Proof.
  destruct C10_merge_branch_unreachable as (_ & _ & _ & W & _ & H).
  destruct (H Suburbs.init 0%nat origin (1, 0)
              (inject_Z 1 * Suburbs.grid_size, inject_Z 0 * Suburbs.grid_size)
              (Lazy.refresh Suburbs.init)) as (t & _ & _ & _ & _ & A & _).
  - apply (W 0%nat). apply Lazy.reach_init.
  - simpl. lia.
  - vm_compute. reflexivity.
  - exact A.
Defined.

(** ** C9: how far the network reaches after 200 calls *)



(** The bound of C9 is not a bound per call in [Simcity_surburbs.py]: one
    call with three attempts can already place a node [sqrt 5] cells from
    the origin, further than [2 * min_distance]. *)
Example suburbs_first_call_beyond_two_cells :
  exists st,
    Suburbs.run Suburbs.init
      [mkDraw 0 [(1, 0); (4 # 5, 3 # 5); (4 # 5, 3 # 5)]] = Some st /\
    ~ Forall (within (1 * 2 * min_distance)) (Lazy.node_positions st).
Proof.
  eexists. split; [vm_compute; reflexivity|].
  intros H. rewrite Forall_forall in H.
  specialize (H (inject_Z 2 * Suburbs.grid_size, inject_Z 1 * Suburbs.grid_size)).
  assert (W : within (1 * 2 * min_distance)
                (inject_Z 2 * Suburbs.grid_size, inject_Z 1 * Suburbs.grid_size)).
  { apply H. simpl. right. right. right. left. reflexivity. }
  vm_compute in W. apply W. reflexivity.
Qed.

(** * Further properties of the engines *)

(** ** The engine with the dirty flag: the shape of the network *)

Section LazyShape.

Import Lazy LazyInv.

Variable valid_factor : Q.
Variable num_radii : nat.
Variable place : pos -> pos.
Hypothesis half_le_factor : 1 # 2 <= valid_factor.





End LazyShape.


(** ** [normal_city_unplanned.py]: the growth loop *)

Section UnplannedLoop.

Import Unplanned UnplannedInv UnplannedShape.

(** What one growth attempt does, in every state: nothing when no
    candidate is valid; a road to the node already at the candidate
    position when there is one; otherwise a new node there and the road
    to it -- [_add_node] cannot fail at this point. *)
Lemma unplanned_attempt_spec node_id p st a :
  attempt node_id p st a =
    match _find_valid_position st p a with
    | None => st
    | Some c =>
        match position_lookup c (position_to_node st) with
        | Some e => _add_road st node_id e
        | None => grown st node_id c
        end
    end.
Proof.
  unfold attempt, grown.
  destruct (_find_valid_position st p a) as [c|] eqn:F; [|reflexivity].
  destruct (position_lookup c (position_to_node st)); [reflexivity|].
  destruct (find_some _ _ F) as [_ Hv].
  unfold _add_node. rewrite Hv. reflexivity.
Qed.

Lemma unplanned_grown_fields st node_id c :
  _is_valid_position st c = true ->
  node_positions (grown st node_id c) = node_positions st ++ [c] /\
  position_to_node (grown st node_id c) =
    (c, length (node_positions st)) :: position_to_node st /\
  road_ages (grown st node_id c) =
    add_road_ages (road_ages st) (current_time st) node_id
                  (length (node_positions st)) /\
  growth_queue (grown st node_id c) =
    growth_queue st ++ [length (node_positions st)] /\
  current_time (grown st node_id c) = current_time st /\
  kd_tree (grown st node_id c) =
    if Nat.eqb (length (node_positions st) mod 10) 0
    then build_tree (node_positions st ++ [c]) else kd_tree st.
Proof.
  intros Hv. unfold grown.
  destruct (add_node_cases st c) as [E|(st' & E & Hn & Hq & Hr & Ht & Hm & Hk)].
  - unfold _add_node in E. rewrite Hv in E. discriminate.
  - rewrite E. simpl. rewrite Hn, Hq, Hr, Ht, Hm, Hk. auto 10.
Qed.

Lemma unplanned_wf_grown st node_id c :
  wf st -> _is_valid_position st c = true -> wf (grown st node_id c).
Proof.
  intros [Hn Hq] Hv.
  destruct (unplanned_grown_fields st node_id c Hv) as (En & _ & _ & Eq & _).
  unfold wf. rewrite En, Eq, length_app. simpl. split.
  - destruct (node_positions st); discriminate.
  - apply Forall_app. split.
    + eapply Forall_impl; [|exact Hq]. simpl. intros; lia.
    + constructor; [lia|constructor].
Qed.


End UnplannedLoop.

(** ** Sound roads *)




(** ** [normal_city_unplanned.py]: the position index and the roads *)



Lemma pos_eqb_trans p q r :
  pos_eqb p q = true -> pos_eqb q r = true -> pos_eqb p r = true.
Proof.
  unfold pos_eqb. rewrite !andb_true_iff, !Qeq_bool_iff.
  intros [A B] [C D]. split; etransitivity; eassumption.
Qed.



Section UnplannedGraph.

Import Unplanned UnplannedInv UnplannedShape.





End UnplannedGraph.

(** ** [normal_city_unplanned.py]: what the index holds *)




Section UnplannedIndex.

Import Unplanned UnplannedInv UnplannedShape.




End UnplannedIndex.

(** ** Nodes, roads and the clock *)



(** ** [Simcity_surburbs.py]: the grid *)

Lemma round_half_even_integer z :
  Suburbs.round_half_even (inject_Z z) = z.
Proof.
  unfold Suburbs.round_half_even. rewrite Qfloor_Z.
  assert (H : Qlt_bool (inject_Z z - inject_Z z) (1 # 2) = true).
  { apply Qlt_bool_iff. lra. }
  rewrite H. reflexivity.
Qed.


Lemma snap_coordinate_fixed z :
  Suburbs.round_half_even (inject_Z z * Suburbs.grid_size / Suburbs.grid_size)
  = z.
Proof.
  rewrite (round_half_even_proper _ (inject_Z z)).
  - apply round_half_even_integer.
  - field. exact grid_size_nonzero.
Qed.



(** ** The data of a rendered frame *)

Lemma normalized_age_range time t :
  (t <= time)%nat ->
  0 <= normalized_age time t /\ normalized_age time t <= 1.
Proof.
  intros H. unfold normalized_age. split; [|apply Q.le_min_l].
  apply Q.min_glb; [lra|].
  assert (0 <= inject_Z (Z.of_nat time - Z.of_nat t)).
  { change 0 with (inject_Z 0). rewrite <- Zle_Qle. lia. }
  apply Qle_shift_div_l; lra.
Qed.

(** The colour saturates exactly from age 50 on. *)
Lemma normalized_age_saturated time t :
  normalized_age time t == 1 <-> (t + 50 <= time)%nat.
Proof.
  unfold normalized_age.
  set (a := inject_Z (Z.of_nat time - Z.of_nat t)).
  assert (E : a / 50 == a * (1 # 50)) by (unfold Qdiv; reflexivity).
  split.
  - intros H.
    assert (A : inject_Z 50 <= a).
    { change (inject_Z 50) with 50.
      destruct (Q.min_spec 1 (a / 50)) as [[L M]|[L M]]; rewrite M in H.
      - rewrite E in L. lra.
      - rewrite E in H. lra. }
    unfold a in A. rewrite <- Zle_Qle in A. lia.
  - intros H.
    assert (A : inject_Z 50 <= a).
    { unfold a. rewrite <- Zle_Qle. lia. }
    change (inject_Z 50) with 50 in A.
    rewrite Q.min_l; [reflexivity|]. rewrite E. lra.
Qed.

(** An older road is never paler than a younger one. *)
Lemma normalized_age_antitone time t t' :
  (t <= t')%nat -> normalized_age time t' <= normalized_age time t.
Proof.
  intros H. unfold normalized_age. apply Q.min_le_compat_l.
  unfold Qdiv. apply Qmult_le_compat_r; [|discriminate].
  rewrite <- Zle_Qle. lia.
Qed.





Lemma Forall2_snoc {A B} (R : A -> B -> Prop) l l' x y :
  Forall2 R l l' -> R x y -> Forall2 R (l ++ [x]) (l' ++ [y]).
Proof.
  intros H Hxy. apply Forall2_app; [exact H|]. constructor; [exact Hxy|constructor].
Qed.



(** ** The road list is in creation order *)






(** ** Evaluated runs are runs *)






(** * Further theorems *)

(** ** The shape of the network *)









(** ** [normal_city_unplanned.py] *)



(** X6.  In [normal_city_unplanned.py], whatever the state, a position
    returned by [_find_valid_position] is accepted by [_add_node], which
    reads the same index: the node gets the next id.  So a growth attempt
    has three outcomes only: nothing (no valid candidate), a road to the
    node already at the candidate position, or a new node there with the
    road to it; the guard on a failed [_add_node] never fires. *)
Theorem X6_unplanned_attempt_outcomes :
  forall st node_id base a,
    (forall c, Unplanned._find_valid_position st base a = Some c ->
       fst (Unplanned._add_node st c)
         = Some (length (Unplanned.node_positions st))) /\
    Unplanned.attempt node_id base st a =
      match Unplanned._find_valid_position st base a with
      | None => st
      | Some c =>
          match Unplanned.position_lookup c (Unplanned.position_to_node st) with
          | Some e => Unplanned._add_road st node_id e
          | None =>
              Unplanned._add_road (snd (Unplanned._add_node st c)) node_id
                                  (length (Unplanned.node_positions st))
          end
      end.
Proof.
  intros st node_id base a. split.
  - intros c F. destruct (find_some _ _ F) as [_ Hv].
    unfold Unplanned._add_node. rewrite Hv. reflexivity.
  - apply unplanned_attempt_spec.
Qed.

Lemma X6_unplanned_attempt_outcomes_witness :
  match Unplanned._find_valid_position Unplanned.init origin (1, 0) with
  | Some c => fst (Unplanned._add_node Unplanned.init c) = Some 1%nat
  | None => False
  end.
Proof.
  destruct (X6_unplanned_attempt_outcomes Unplanned.init 0 origin (1, 0))
    as [H _].
  destruct (Unplanned._find_valid_position Unplanned.init origin (1, 0))
    as [c|] eqn:F.
  - apply (H c eq_refl).
  - vm_compute in F. discriminate F.
Defined.





(** ** [Simcity_surburbs.py]: the grid *)


(** X10.  [_snap_to_grid] is idempotent: a snapped point is a grid point,
    and snapping it again returns it unchanged. *)
Theorem X10_snap_idempotent :
  forall p,
    Suburbs._snap_to_grid (Suburbs._snap_to_grid p) = Suburbs._snap_to_grid p.
Proof.
  intros p. unfold Suburbs._snap_to_grid. simpl.
  rewrite !snap_coordinate_fixed. reflexivity.
Qed.



(** ** The rendered frame *)







(** X15.  The normalised age [min(1.0, age / 50)] that colours a road: it
    is between 0 and 1 when the road is not from the future; it is 1
    exactly when the road is at least 50 clock ticks old; and at a given
    clock value an older road never has a smaller one than a younger
    road. *)
Theorem X15_normalized_age :
  forall time t,
    ((t <= time)%nat ->
     0 <= normalized_age time t /\ normalized_age time t <= 1) /\
    (normalized_age time t == 1 <-> (t + 50 <= time)%nat) /\
    (forall t', (t <= t')%nat ->
       normalized_age time t' <= normalized_age time t).
Proof.
  intros time t. split; [apply normalized_age_range|].
  split; [apply normalized_age_saturated|].
  intros t'. apply normalized_age_antitone.
Qed.

Lemma X15_normalized_age_witness :
  (0 <= normalized_age 30 5 /\ normalized_age 30 5 <= 1) /\
  normalized_age 80 20 == 1 /\
  normalized_age 30 9 <= normalized_age 30 5.
Proof.
  destruct (X15_normalized_age 30 5) as (H1 & _ & H3).
  destruct (X15_normalized_age 80 20) as (_ & H2 & _).
  split; [apply H1; lia|]. split; [apply H2; lia|apply H3; lia].
Defined.
